(** * Creator Insight Extraction: query resolution and weighted ranking

    A shallow embedding of the core of [main.py]: the substring category
    resolver ([extract_category_basic]), the follower-filter comparison
    ([re.match] inside [rank_creators]), the ranking engine
    ([rank_creators]) and the extraction of the first brace-delimited block
    from the language-model reply ([parse_query_llm]); and, around them,
    the column names of [load_data], the category vocabulary, the query
    history and the run of the script without the interpreter.

    Conventions of the embedding.
    - A Python [str] is a [string] whose characters are the code points
      U+0000..U+00FF; on that range [str.lower], [str.strip], the regular
      expression classes [\s] and [\d] are written out exactly.  The
      resolver is also given on strings with the Greek sigma
      ([Unicode.ustring]), where [str.lower] depends on the context of a
      character.
    - A Python [int] is a [Z]; [int] of a text and the integers of
      [json.loads] raise [ValueError] beyond 4300 digits, as CPython does
      by default.
    - The [float64] columns and weights are exact rationals ([Q]): rounding,
      infinities and NaN are not part of the model, nor is the wrap-around
      of the sum of two [int64] columns at line 134.  The two scores of the
      worked scenario are computed in [float64] as well.
    - The [category] column is a column of text in which cells may be
      missing, as [read_csv] gives it when some cell holds text.
    - An uncaught exception is the [Raise] branch of [outcome]; calls are
      taken to return or raise.
    - The libraries the script calls are modelled by what they promise:
      [sort_values] by its contract, [json.loads] by a decoder written out
      here, the [together] client and the built-in [eval] as parameters.
      The order [sort_values] gives to rows of equal [Score] depends on the
      sorting routine numpy selects for the processor, and is left open. *)

From Stdlib Require Import List String Ascii Bool Arith ZArith QArith Lia.
From Stdlib Require Import Permutation Sorted.
From Stdlib Require Floats.PrimFloat.
Import ListNotations.

Local Open Scope string_scope.
Local Open Scope bool_scope.
Local Open Scope nat_scope.

(** ** Python strings *)

Module PyStr.

(** The double-quote character; [sq] is the single quote. *)
Definition dq : ascii := ascii_of_nat 34.
Definition sq : ascii := ascii_of_nat 39.

(** [q s] is [s] with every backquote turned into a double quote: a way to
    write texts that contain double quotes. *)
Fixpoint q (s : string) : string :=
  match s with
  | EmptyString => EmptyString
  | String c t => String (if Ascii.eqb c "`" then dq else c) (q t)
  end.

Definition between (lo hi n : nat) : bool := (lo <=? n) && (n <=? hi).

(** [str.isspace] (and the class [\s] of [re] on [str] patterns). *)
Definition is_space (c : ascii) : bool :=
  let n := nat_of_ascii c in
  between 9 13 n || between 28 32 n || (n =? 133) || (n =? 160).

(** The class [\d] of [re]: the decimal digits. *)
Definition is_digit (c : ascii) : bool := between 48 57 (nat_of_ascii c).

(** [str.lower] on one character: A-Z, and the upper-case letters of
    U+00C0..U+00DE (U+00D7, the multiplication sign, has no case). *)
Definition lower_char (c : ascii) : ascii :=
  let n := nat_of_ascii c in
  if between 65 90 n || (between 192 222 n && negb (n =? 215))
  then ascii_of_nat (n + 32) else c.

Fixpoint lower (s : string) : string :=
  match s with
  | EmptyString => EmptyString
  | String c t => String (lower_char c) (lower t)
  end.

Fixpoint lstrip (s : string) : string :=
  match s with
  | String c t => if is_space c then lstrip t else s
  | EmptyString => EmptyString
  end.

Fixpoint reverse (s : string) : string :=
  match s with
  | EmptyString => EmptyString
  | String c t => reverse t ++ String c EmptyString
  end.

Definition rstrip (s : string) : string := reverse (lstrip (reverse s)).

(** [str.strip()] with no argument. *)
Definition strip (s : string) : string := rstrip (lstrip s).

(** [s.replace(a, b)] for one-character [a] and [b]. *)
Fixpoint replace_char (a b : ascii) (s : string) : string :=
  match s with
  | EmptyString => EmptyString
  | String c t => String (if Ascii.eqb c a then b else c) (replace_char a b t)
  end.

(** [s.startswith(p)]. *)
Fixpoint startswith (p s : string) : bool :=
  match p, s with
  | EmptyString, _ => true
  | String a p', String b s' => Ascii.eqb a b && startswith p' s'
  | String _ _, EmptyString => false
  end.

(** The operator [needle in hay] on two strings. *)
Fixpoint contains (needle hay : string) : bool :=
  startswith needle hay ||
  match hay with
  | EmptyString => false
  | String _ t => contains needle t
  end.

(** [needle] occurs in [hay]: the meaning of [contains]. *)
Definition occurs_in (needle hay : string) : Prop :=
  exists a b, hay = a ++ needle ++ b.

(** [c * n]: the character [c], [n] times. *)
Fixpoint repeat_char (c : ascii) (n : nat) : string :=
  match n with
  | O => EmptyString
  | S n' => String c (repeat_char c n')
  end.

(** Truthiness of a string: the empty string is false. *)
Definition truthy (s : string) : bool :=
  match s with EmptyString => false | String _ _ => true end.

End PyStr.

Import PyStr.

(** ** Exceptions *)

(** The exceptions of the model.  [SystemExit] and [KeyboardInterrupt] derive
    from [BaseException] only, so [except Exception] does not catch them.
    [Custom] is an instance of a class defined elsewhere (an expression
    given to [eval], the [together] client): whether the class derives from
    [Exception], and the exception that [str] raises on the instance, if it
    raises. *)
#[warnings="-register-all"]
Inductive exn : Type :=
| AttributeError
| SyntaxError
| NameError
| ValueError
| OtherException
| SystemExit
| KeyboardInterrupt
| Custom (derives_from_Exception : bool) (str_raises : option exn).

Definition is_Exception (e : exn) : bool :=
  match e with
  | SystemExit | KeyboardInterrupt => false
  | Custom derives _ => derives
  | _ => true
  end.

(** What formatting the exception into a message ([f"...{e}"], that is
    [str(e)]) raises: nothing for the built-in exceptions. *)
Definition format_raises (e : exn) : option exn :=
  match e with
  | Custom _ raised => raised
  | _ => None
  end.

Inductive outcome (A : Type) : Type :=
| Ok (a : A)
| Raise (e : exn).
Arguments Ok {A} a.
Arguments Raise {A} e.

(** ** Filter Resolver: [extract_category_basic] *)

Module Resolver.

(** The loop [for category in categories] of [extract_category_basic],
    with [query_lower] already computed. *)
Fixpoint first_match (query_lower : string) (categories : list string)
  : option string :=
  match categories with
  | [] => None
  | category :: rest =>
      if contains (lower category) query_lower then Some category
      else first_match query_lower rest
  end.

Definition extract_category_basic (query : string) (categories : list string)
  : option string :=
  let query_lower := lower query in
  first_match query_lower categories.

(** [c] matches the query: its lower-cased name occurs in the lower-cased
    query. *)
Definition matches (query c : string) : Prop :=
  occurs_in (lower c) (lower query).

End Resolver.

(** ** Strings with the Greek sigma

    [str.lower] is not a map of characters: the capital sigma (U+03A3)
    becomes the final sigma (U+03C2) at the end of a word and the small
    sigma (U+03C3) elsewhere.  The strings of this module are made of the
    code points U+0000..U+00FF and the three sigmas, and [lower] follows
    CPython's [str.lower] on them. *)

Module Unicode.

Inductive uchar : Type :=
| L1 (c : ascii)
| CapitalSigma
| SmallSigma
| FinalSigma.

Definition ustring : Type := list uchar.

Fixpoint of_latin1 (s : string) : ustring :=
  match s with
  | EmptyString => []
  | String c t => L1 c :: of_latin1 t
  end.

Definition uchar_eqb (a b : uchar) : bool :=
  match a, b with
  | L1 x, L1 y => Ascii.eqb x y
  | CapitalSigma, CapitalSigma => true
  | SmallSigma, SmallSigma => true
  | FinalSigma, FinalSigma => true
  | _, _ => false
  end.

(** The two properties of a character that the rule of the final sigma
    reads: [Cased] stands for cased and not case-ignorable. *)
Inductive case_class : Type :=
| Cased
| CaseIgnorable
| Uncased.

(** The case-ignorable characters of U+0000..U+00FF: apostrophe, full
    stop, colon, circumflex, grave accent, diaeresis, soft hyphen, macron,
    acute accent, middle dot, cedilla. *)
Definition case_ignorable_latin1 (n : nat) : bool :=
  existsb (Nat.eqb n) [39; 46; 58; 94; 96; 168; 173; 175; 180; 183; 184].

(** The cased characters of U+0000..U+00FF: the letters, the two ordinal
    indicators and the micro sign. *)
Definition cased_latin1 (n : nat) : bool :=
  between 65 90 n || between 97 122 n
  || (n =? 170) || (n =? 181) || (n =? 186)
  || between 192 214 n || between 216 246 n || between 248 255 n.

Definition class_of (c : uchar) : case_class :=
  match c with
  | L1 a =>
      let n := nat_of_ascii a in
      if case_ignorable_latin1 n then CaseIgnorable
      else if cased_latin1 n then Cased
      else Uncased
  | CapitalSigma | SmallSigma | FinalSigma => Cased
  end.

(** No cased character follows, case-ignorable characters skipped. *)
Fixpoint ends_word (s : ustring) : bool :=
  match s with
  | [] => true
  | c :: t =>
      match class_of c with
      | CaseIgnorable => ends_word t
      | Cased => false
      | Uncased => true
      end
  end.

(** The lower case of [c], which stands before [rest]; [after_cased] tells
    whether a cased character precedes it, case-ignorable characters
    skipped. *)
Definition lower_at (after_cased : bool) (c : uchar) (rest : ustring) : uchar :=
  match c with
  | L1 a => L1 (lower_char a)
  | CapitalSigma =>
      if after_cased && ends_word rest then FinalSigma else SmallSigma
  | SmallSigma | FinalSigma => c
  end.

Definition after (after_cased : bool) (c : uchar) : bool :=
  match class_of c with
  | CaseIgnorable => after_cased
  | Cased => true
  | Uncased => false
  end.

Fixpoint lower_from (after_cased : bool) (s : ustring) : ustring :=
  match s with
  | [] => []
  | c :: t => lower_at after_cased c t :: lower_from (after after_cased c) t
  end.

(** [str.lower]. *)
Definition lower (s : ustring) : ustring := lower_from false s.

Fixpoint startswith (p s : ustring) : bool :=
  match p, s with
  | [], _ => true
  | a :: p', b :: s' => uchar_eqb a b && startswith p' s'
  | _ :: _, [] => false
  end.

(** The operator [needle in hay]. *)
Fixpoint contains (needle hay : ustring) : bool :=
  startswith needle hay ||
  match hay with
  | [] => false
  | _ :: t => contains needle t
  end.

Definition occurs_in (needle hay : ustring) : Prop :=
  exists a b, hay = (a ++ needle ++ b)%list.

(** The loop of [extract_category_basic]. *)
Fixpoint first_match (query_lower : ustring) (categories : list ustring)
  : option ustring :=
  match categories with
  | [] => None
  | category :: rest =>
      if contains (lower category) query_lower then Some category
      else first_match query_lower rest
  end.

(** Lines 62-67. *)
Definition extract_category_basic (query : ustring)
    (categories : list ustring) : option ustring :=
  let query_lower := lower query in
  first_match query_lower categories.

(** [c] matches the query: its lower-cased name occurs in the lower-cased
    query. *)
Definition matches (query c : ustring) : Prop :=
  occurs_in (lower c) (lower query).

(** A category name that ends in a capital sigma, and a query in which a
    letter follows the name. *)
Definition sigma_name : ustring := [L1 "A"; CapitalSigma].
Definition sigma_query : ustring := (sigma_name ++ of_latin1 "A creators")%list.

End Unicode.

(** ** The data source: a table of creator records *)

Module Frame.

(** One row of the table, with the columns [rank_creators] reads.  A
    missing cell (NaN) of [category] is [None]; a cell of a numeric column
    that [pd.to_numeric(errors='coerce')] cannot read, or that is missing,
    is [None] too. *)
Record row : Type := mk_row {
  name : string;
  category : option string;
  follower_count : Z;
  engagement_rate : option Q;
  average_likes_post : option Q;
  average_comments_post : option Q
}.

Definition frame : Type := list row.

(** A row of the ranked table: the source row, the three coerced columns
    and the derived columns. *)
Record scored : Type := mk_scored {
  src : row;
  engagement : Q;
  likes : Q;
  comments : Q;
  Follower_Score : Q;
  avg_likes_comments : Q;
  Score : Q
}.

End Frame.

Import Frame.

(** ** Numeric Filter Evaluator: the comparison read by [re.match] *)

Module Comparison.

(** The class [[><=]]. *)
Definition is_cmp_op (c : ascii) : bool :=
  Ascii.eqb c ">" || Ascii.eqb c "<" || Ascii.eqb c "=".

(** The longest prefix of digits (the greedy [\d+]) and what follows. *)
Fixpoint span_digits (s : string) : string * string :=
  match s with
  | String c t =>
      if is_digit c then let (ds, rest) := span_digits t in (String c ds, rest)
      else (EmptyString, s)
  | EmptyString => (EmptyString, EmptyString)
  end.

(** [re.match(r'([><=])\s*(\d+)', text)], giving [match.groups()].  The
    match is anchored at the first character; [\s*] and [\d+] are greedy,
    and since no character is both a space and a digit there is nothing to
    backtrack. *)
Definition re_match_comparison (text : string) : option (ascii * string) :=
  match text with
  | String c t =>
      if is_cmp_op c then
        match span_digits (lstrip t) with
        | (EmptyString, _) => None
        | (ds, _) => Some (c, ds)
        end
      else None
  | EmptyString => None
  end.

Definition digit_value (c : ascii) : Z := Z.of_nat (nat_of_ascii c - 48).

Fixpoint int_digits (acc : Z) (s : string) : Z :=
  match s with
  | EmptyString => acc
  | String c t => int_digits (10 * acc + digit_value c) t
  end.

(** The integer a string of decimal digits denotes. *)
Definition int_of (digits : string) : Z := int_digits 0 digits.

(** [sys.get_int_max_str_digits()], at its default. *)
Definition int_max_str_digits : nat := 4300.

(** [int(value)] on a string of decimal digits: CPython raises
    [ValueError] when there are more than [int_max_str_digits] of them,
    leading zeros included. *)
Definition int_py (digits : string) : outcome Z :=
  if String.length digits <=? int_max_str_digits then Ok (int_of digits)
  else Raise ValueError.

(** Lines 113-116: the operator and the integer when the pattern matches,
    [None] when it does not. *)
Definition parse_comparison (text : string) : outcome (option (ascii * Z)) :=
  match re_match_comparison text with
  | Some (op, value) =>
      match int_py value with
      | Ok v => Ok (Some (op, v))
      | Raise e => Raise e
      end
  | None => Ok None
  end.

(** Lines 117-122: the [if]/[elif] chain on [op]. *)
Definition apply_follower_filter (op : ascii) (value : Z) (df : frame) : frame :=
  if Ascii.eqb op ">" then filter (fun r => (follower_count r >? value)%Z) df
  else if Ascii.eqb op "<" then filter (fun r => (follower_count r <? value)%Z) df
  else if Ascii.eqb op "=" then filter (fun r => (follower_count r =? value)%Z) df
  else df.

(** [n op value] under integer comparison. *)
Definition holds (op : ascii) (n value : Z) : Prop :=
  (op = ">"%char /\ (n > value)%Z) \/
  (op = "<"%char /\ (n < value)%Z) \/
  (op = "="%char /\ n = value).

Fixpoint all_chars (p : ascii -> bool) (s : string) : bool :=
  match s with
  | EmptyString => true
  | String c t => p c && all_chars p t
  end.

Definition starts_with_digit (s : string) : bool :=
  match s with String c _ => is_digit c | EmptyString => false end.

(** The shape [re.match] accepts: the operator as first character, any
    white space, a non-empty maximal run of digits, then anything. *)
Definition comparison_shape (text : string) (op : ascii) (digits : string) : Prop :=
  exists ws rest,
    text = String op (ws ++ digits ++ rest)
    /\ is_cmp_op op = true
    /\ all_chars is_space ws = true
    /\ all_chars is_digit digits = true /\ digits <> EmptyString
    /\ starts_with_digit rest = false.

(** The shape of section 4.3 of the specification: as above, after any
    leading white space. *)
Definition spec_shape (text : string) (op : ascii) (digits : string) : Prop :=
  exists lead tail,
    text = lead ++ tail
    /\ all_chars is_space lead = true
    /\ comparison_shape tail op digits.

End Comparison.

Import Comparison.

(** ** Ranking Engine: [rank_creators] *)

Module Ranking.

(** [df['category'].str.lower() == category.lower()] on one row; a missing
    category compares unequal. *)
Definition category_is (category_lower : string) (r : row) : bool :=
  match category r with
  | Some c => String.eqb (lower c) category_lower
  | None => false
  end.

(** [df_filtered['follower_count'].max()]: NaN ([None]) on an empty
    column. *)
Definition column_max (df : frame) : option Z :=
  match df with
  | [] => None
  | r :: rest => Some (fold_left Z.max (map follower_count rest) (follower_count r))
  end.

(** [pd.to_numeric(..., errors='coerce').fillna(0)] on one cell. *)
Definition to_numeric_fillna (cell : option Q) : Q :=
  match cell with Some v => v | None => 0%Q end.

(** Lines 125-128 on one row. *)
Definition follower_score (max_followers : option Z) (r : row) : Q :=
  match max_followers with
  | Some m =>
      if (0 <? m)%Z then (inject_Z (follower_count r) / inject_Z m)%Q else 0%Q
  | None => 0%Q
  end.

(** Lines 125-140 on one row. *)
Definition score_row (max_followers : option Z) (w_eng w_fol w_likes : Q)
    (r : row) : scored :=
  let fs := follower_score max_followers r in
  let e := to_numeric_fillna (engagement_rate r) in
  let l := to_numeric_fillna (average_likes_post r) in
  let c := to_numeric_fillna (average_comments_post r) in
  let lc := (l + c)%Q in
  {| src := r; engagement := e; likes := l; comments := c;
     Follower_Score := fs; avg_likes_comments := lc;
     Score := (e * w_eng + fs * w_fol + lc * w_likes)%Q |}.

(** Lines 110-122: the category filter, then the follower filter. *)
Definition filter_frame (df : frame) (category : option string)
    (follower_filter : option string) : outcome frame :=
  match category with
  | None => Raise AttributeError
  | Some cat =>
      let df_filtered := filter (category_is (lower cat)) df in
      match follower_filter with
      | Some ff =>
          if truthy ff then
            match parse_comparison ff with
            | Ok (Some (op, value)) =>
                Ok (apply_follower_filter op value df_filtered)
            | Ok None => Ok df_filtered
            | Raise e => Raise e
            end
          else Ok df_filtered
      | None => Ok df_filtered
      end
  end.

(** The exception the follower-filter text makes line 116 raise, if any. *)
Definition follower_filter_raises (follower_filter : option string)
  : option exn :=
  match follower_filter with
  | Some ff =>
      if truthy ff then
        match parse_comparison ff with
        | Raise e => Some e
        | Ok _ => None
        end
      else None
  | None => None
  end.

(** Lines 110-140: [df_filtered] with its [Score] column, rows still in
    the order of the input table. *)
Definition score_frame (df : frame) (category : option string)
    (follower_filter : option string) (w_eng w_fol w_likes : Q)
    : outcome (list scored) :=
  match filter_frame df category follower_filter with
  | Raise e => Raise e
  | Ok df_filtered =>
      let max_followers := column_max df_filtered in
      Ok (map (score_row max_followers w_eng w_fol w_likes) df_filtered)
  end.

Definition score_ge (a b : scored) : Prop := (Score b <= Score a)%Q.

(** [sort_values(by='Score', ascending=False)] with the default
    [kind='quicksort']: the rows reordered so that [Score] does not
    increase.  pandas promises a stable order only for [kind='mergesort']
    and [kind='stable'], so the order among rows of equal [Score] is left
    open here. *)
Definition sort_values_desc (l ranked : list scored) : Prop :=
  Permutation l ranked /\ StronglySorted score_ge ranked.

(** [rank_creators]: what the call may produce. *)
Inductive rank_creators (df : frame) (category : option string)
    (follower_filter : option string) (w_eng w_fol w_likes : Q)
    : outcome (list scored) -> Prop :=
| rank_raises e :
    score_frame df category follower_filter w_eng w_fol w_likes = Raise e ->
    rank_creators df category follower_filter w_eng w_fol w_likes (Raise e)
| rank_returns l ranked :
    score_frame df category follower_filter w_eng w_fol w_likes = Ok l ->
    sort_values_desc l ranked ->
    rank_creators df category follower_filter w_eng w_fol w_likes (Ok ranked).

(** A descending sort by insertion, each row placed after the rows of
    equal [Score]: one way to meet [sort_values_desc]. *)
Fixpoint insert_desc (x : scored) (l : list scored) : list scored :=
  match l with
  | [] => [x]
  | y :: t =>
      if Qle_bool (Score x) (Score y) then y :: insert_desc x t
      else x :: l
  end.

Fixpoint stable_sort_desc (l : list scored) : list scored :=
  match l with
  | [] => []
  | x :: t => insert_desc x (stable_sort_desc t)
  end.

End Ranking.

Import Ranking.

(** ** The call of [rank_creators] in the main script *)

Module App.

(** Lines 217-218: an empty text, or [show all] in any case and with white
    space around it, is no filter. *)
Definition normalize_follower_filter (follower_filter : string) : option string :=
  if negb (truthy follower_filter)
     || String.eqb (lower (strip follower_filter)) "show all"
  then None else Some follower_filter.

(** Lines 217-221, as what the call may produce. *)
Definition run_ranking (df : frame) (category : option string)
    (follower_filter : string) (w_eng w_fol w_likes : Q)
    : outcome (list scored) -> Prop :=
  rank_creators df category (normalize_follower_filter follower_filter)
    w_eng w_fol w_likes.

End App.

Import App.

(** ** [json.loads]

    The decoder of the Python standard library, in its default (strict)
    mode: a lexer for the JSON tokens followed by a push-down recogniser
    that builds the value.  The nesting depth is not bounded (CPython raises
    [RecursionError] at a depth that depends on the interpreter's stack,
    about a thousand levels). *)

Module Json.

#[local] Unset Elimination Schemes.

(** A decoded value.  A [str] is the list of its code points (an escape
    [\uXXXX] may denote a code point above U+00FF); a [float] is kept as
    its lexeme; a [dict] is the list of its items in insertion order. *)
Inductive value : Type :=
| JNull
| JBool (b : bool)
| JInt (n : Z)
| JFloat (lexeme : string)
| JStr (s : list N)
| JArr (items : list value)
| JObj (members : list (list N * value)).
#[local] Set Elimination Schemes.

Inductive token : Type :=
| TLBrace
| TRBrace
| TLBrack
| TRBrack
| TColon
| TComma
| TScalar (v : value).

Definition backslash : ascii := ascii_of_nat 92.

(** The white space of JSON: space, tab, line feed, carriage return. *)
Definition json_ws (c : ascii) : bool :=
  let n := nat_of_ascii c in
  (n =? 32) || (n =? 9) || (n =? 10) || (n =? 13).

Definition hex_value (c : ascii) : option N :=
  let n := nat_of_ascii c in
  if between 48 57 n then Some (N.of_nat (n - 48))
  else if between 97 102 n then Some (N.of_nat (n - 87))
  else if between 65 70 n then Some (N.of_nat (n - 55))
  else None.

(** The one-letter escapes. *)
Definition simple_escape (e : ascii) : option N :=
  if Ascii.eqb e dq then Some 34%N
  else if Ascii.eqb e backslash then Some 92%N
  else if Ascii.eqb e "/" then Some 47%N
  else if Ascii.eqb e "b" then Some 8%N
  else if Ascii.eqb e "f" then Some 12%N
  else if Ascii.eqb e "n" then Some 10%N
  else if Ascii.eqb e "r" then Some 13%N
  else if Ascii.eqb e "t" then Some 9%N
  else None.

Definition is_high_surrogate (u : N) : bool := (55296 <=? u)%N && (u <=? 56319)%N.
Definition is_low_surrogate (u : N) : bool := (56320 <=? u)%N && (u <=? 57343)%N.

(** The code point of an escape [\uXXXX] is appended; a low surrogate that
    follows the escape of a high surrogate is joined with it.  [acc] is the
    text read so far, last code point first. *)
Definition push_escape (u : N) (acc : list N) : list N :=
  match acc with
  | hi :: rest =>
      if is_high_surrogate hi && is_low_surrogate u
      then (65536 + (hi - 55296) * 1024 + (u - 56320))%N :: rest
      else u :: acc
  | [] => [u]
  end.

(** Where the scan of a string literal stands: in plain text, after a
    backslash, or inside [\uXXXX] with [more] digits to read after the next
    one. *)
Inductive smode : Type :=
| SPlain
| SEscape
| SHex (more : nat) (code : N).

(** [scanstring]: the body of a string literal, from just after the opening
    quote; gives the decoded text and what follows the closing quote. *)
Fixpoint scanstring (m : smode) (acc : list N) (s : string)
  : option (list N * string) :=
  match s with
  | EmptyString => None
  | String c t =>
      match m with
      | SPlain =>
          if Ascii.eqb c dq then Some (List.rev acc, t)
          else if Ascii.eqb c backslash then scanstring SEscape acc t
          else if nat_of_ascii c <? 32 then None
          else scanstring SPlain (N_of_ascii c :: acc) t
      | SEscape =>
          if Ascii.eqb c "u" then scanstring (SHex 3 0%N) acc t
          else match simple_escape c with
               | Some u => scanstring SPlain (u :: acc) t
               | None => None
               end
      | SHex more code =>
          match hex_value c with
          | None => None
          | Some d =>
              let code' := (code * 16 + d)%N in
              match more with
              | O => scanstring SPlain (push_escape code' acc) t
              | S more' => scanstring (SHex more' code') acc t
              end
          end
      end
  end.

(** The digits of [(\.\d+)?]: a dot and at least one digit, or nothing. *)
Definition scan_frac (s : string) : string * string :=
  match s with
  | String c t =>
      if Ascii.eqb c "." then
        match span_digits t with
        | (EmptyString, _) => (EmptyString, s)
        | (ds, rest) => (String c ds, rest)
        end
      else (EmptyString, s)
  | EmptyString => (EmptyString, s)
  end.

(** The digits of an exponent, after [e] and the optional [sign]; without
    digits there is no exponent and [s] is left as it was. *)
Definition scan_exp_digits (e : ascii) (sign t s : string) : string * string :=
  match span_digits t with
  | (EmptyString, _) => (EmptyString, s)
  | (ds, rest) => (String e (sign ++ ds), rest)
  end.

(** [([eE][-+]?\d+)?]. *)
Definition scan_exp (s : string) : string * string :=
  match s with
  | String e t =>
      if Ascii.eqb e "e" || Ascii.eqb e "E" then
        match t with
        | String g u =>
            if Ascii.eqb g "+" || Ascii.eqb g "-"
            then scan_exp_digits e (String g EmptyString) u s
            else scan_exp_digits e EmptyString t s
        | EmptyString => scan_exp_digits e EmptyString t s
        end
      else (EmptyString, s)
  | EmptyString => (EmptyString, s)
  end.

(** [0], or a digit other than [0] followed by digits. *)
Definition scan_unsigned (sign s : string) : option (string * string) :=
  match s with
  | String d t =>
      if Ascii.eqb d "0" then Some (sign ++ String d EmptyString, t)
      else if is_digit d then
        let (ds, rest) := span_digits s in Some (sign ++ ds, rest)
      else None
  | EmptyString => None
  end.

(** The integer part: an optional minus sign, then [scan_unsigned]. *)
Definition scan_int (s : string) : option (string * string) :=
  match s with
  | String c t =>
      if Ascii.eqb c "-" then scan_unsigned (String c EmptyString) t
      else scan_unsigned EmptyString s
  | EmptyString => None
  end.

(** [int(lexeme)] for an optional minus sign and digits. *)
Definition int_of_lexeme (lexeme : string) : Z :=
  match lexeme with
  | String c t => if Ascii.eqb c "-" then (- int_of t)%Z else int_of lexeme
  | EmptyString => 0%Z
  end.

(** The number of digits of an integer lexeme: the sign does not count. *)
Definition digit_count (lexeme : string) : nat :=
  match lexeme with
  | String c t => if Ascii.eqb c "-" then String.length t
                  else String.length lexeme
  | EmptyString => 0
  end.

(** A number at the head of [s]: an [int] when there is neither fraction nor
    exponent, a [float] otherwise.  [int] raises on more than
    [int_max_str_digits] digits, and so does the decoder. *)
Definition scan_number (s : string) : option (value * string) :=
  match scan_int s with
  | None => None
  | Some (integer, rest) =>
      let (frac, rest1) := scan_frac rest in
      let (exp, rest2) := scan_exp rest1 in
      match frac, exp with
      | EmptyString, EmptyString =>
          if digit_count integer <=? int_max_str_digits
          then Some (JInt (int_of_lexeme integer), rest2)
          else None
      | _, _ => Some (JFloat (integer ++ frac ++ exp), rest2)
      end
  end.

(** [drop n s]: [s] without its first [n] characters. *)
Fixpoint drop (n : nat) (s : string) : string :=
  match n, s with
  | S n', String _ t => drop n' t
  | _, _ => s
  end.

(** The literals, tried in the order of the scanner: [null], [true],
    [false] before a number; [NaN], [Infinity], [-Infinity] after. *)
Definition scan_word (s : string) : option (value * string) :=
  if startswith "null" s then Some (JNull, drop 4 s)
  else if startswith "true" s then Some (JBool true, drop 4 s)
  else if startswith "false" s then Some (JBool false, drop 5 s)
  else match scan_number s with
       | Some r => Some r
       | None =>
           if startswith "NaN" s then Some (JFloat "NaN", drop 3 s)
           else if startswith "Infinity" s then Some (JFloat "Infinity", drop 8 s)
           else if startswith "-Infinity" s then Some (JFloat "-Infinity", drop 9 s)
           else None
       end.

Inductive lexed : Type :=
| Tokens (ts : list token)
| LexError
| OutOfFuel.

Definition cons_token (t : token) (r : lexed) : lexed :=
  match r with
  | Tokens ts => Tokens (t :: ts)
  | other => other
  end.

(** The tokens of [s]; every step takes at least one character, so
    [S (length s)] steps are enough. *)
Fixpoint lex (fuel : nat) (s : string) : lexed :=
  match fuel with
  | O => OutOfFuel
  | S fuel' =>
      match s with
      | EmptyString => Tokens []
      | String c t =>
          if json_ws c then lex fuel' t
          else if Ascii.eqb c "{" then cons_token TLBrace (lex fuel' t)
          else if Ascii.eqb c "}" then cons_token TRBrace (lex fuel' t)
          else if Ascii.eqb c "[" then cons_token TLBrack (lex fuel' t)
          else if Ascii.eqb c "]" then cons_token TRBrack (lex fuel' t)
          else if Ascii.eqb c ":" then cons_token TColon (lex fuel' t)
          else if Ascii.eqb c "," then cons_token TComma (lex fuel' t)
          else if Ascii.eqb c dq then
            match scanstring SPlain [] t with
            | Some (str, rest) => cons_token (TScalar (JStr str)) (lex fuel' rest)
            | None => LexError
            end
          else
            match scan_word s with
            | Some (v, rest) => cons_token (TScalar v) (lex fuel' rest)
            | None => LexError
            end
      end
  end.

Definition tokenize (s : string) : lexed := lex (S (String.length s)) s.

(** [d[k] = v] on the items of a [dict]: a key already present keeps its
    place and takes the new value. *)
Fixpoint dict_set (k : list N) (v : value) (d : list (list N * value))
  : list (list N * value) :=
  match d with
  | [] => [(k, v)]
  | (k', v') :: rest =>
      if list_eq_dec N.eq_dec k k' then (k', v) :: rest
      else (k', v') :: dict_set k v rest
  end.

(** A container being read. *)
Inductive container : Type :=
| InObject (members : list (list N * value)) (key : list N)
| InArray (items : list value).

(** What may come next. *)
Inductive expect : Type :=
| EValue
| EValueOrEnd
| EKeyOrEnd
| EKey
| EColon
| ECommaOrEnd
| EDone (v : value).

Definition pstate : Type := (list container * expect)%type.

(** A finished value goes to the container on top of the stack. *)
Definition deliver (v : value) (stack : list container) : pstate :=
  match stack with
  | [] => ([], EDone v)
  | InObject members key :: rest =>
      (InObject (dict_set key v members) key :: rest, ECommaOrEnd)
  | InArray items :: rest => (InArray (items ++ [v]) :: rest, ECommaOrEnd)
  end.

Definition start_value (t : token) (stack : list container) : option pstate :=
  match t with
  | TScalar v => Some (deliver v stack)
  | TLBrace => Some (InObject [] [] :: stack, EKeyOrEnd)
  | TLBrack => Some (InArray [] :: stack, EValueOrEnd)
  | _ => None
  end.

Definition set_key (k : list N) (stack : list container) : option pstate :=
  match stack with
  | InObject members _ :: rest => Some (InObject members k :: rest, EColon)
  | _ => None
  end.

Definition close_object (stack : list container) : option pstate :=
  match stack with
  | InObject members _ :: rest => Some (deliver (JObj members) rest)
  | _ => None
  end.

Definition close_array (stack : list container) : option pstate :=
  match stack with
  | InArray items :: rest => Some (deliver (JArr items) rest)
  | _ => None
  end.

Definition step (st : pstate) (t : token) : option pstate :=
  let (stack, e) := st in
  match e, t with
  | EValue, _ => start_value t stack
  | EValueOrEnd, TRBrack => close_array stack
  | EValueOrEnd, _ => start_value t stack
  | EKeyOrEnd, TRBrace => close_object stack
  | EKeyOrEnd, TScalar (JStr k) => set_key k stack
  | EKey, TScalar (JStr k) => set_key k stack
  | EColon, TColon => Some (stack, EValue)
  | ECommaOrEnd, TComma =>
      match stack with
      | InObject _ _ :: _ => Some (stack, EKey)
      | InArray _ :: _ => Some (stack, EValue)
      | [] => None
      end
  | ECommaOrEnd, TRBrace => close_object stack
  | ECommaOrEnd, TRBrack => close_array stack
  | _, _ => None
  end.

Fixpoint run (st : pstate) (ts : list token) : option value :=
  match ts with
  | [] => match st with
          | ([], EDone v) => Some v
          | _ => None
          end
  | t :: rest =>
      match step st t with
      | Some st' => run st' rest
      | None => None
      end
  end.

(** [json.loads(s)]: the value, or [None] when the call raises. *)
Definition loads (s : string) : option value :=
  match tokenize s with
  | Tokens ts => run ([], EValue) ts
  | _ => None
  end.

(** The text of [s] as code points. *)
Fixpoint text (s : string) : list N :=
  match s with
  | EmptyString => []
  | String c t => N_of_ascii c :: text t
  end.

(** The number of objects being read. *)
Fixpoint open_objects (stack : list container) : nat :=
  match stack with
  | [] => 0
  | InObject _ _ :: rest => S (open_objects rest)
  | InArray _ :: rest => open_objects rest
  end.

Definition is_open_brace (t : token) : bool :=
  match t with TLBrace => true | _ => false end.

Definition is_close_brace (t : token) : bool :=
  match t with TRBrace => true | _ => false end.

(** Where a character stands with respect to the string literals: outside
    them, inside one, or inside one just after a backslash. *)
Inductive quoting : Type :=
| Outside
| Inside
| Escaped.

(** The number of opening braces of [s] that stand outside the string
    literals, a literal running from a double quote to the next double
    quote that no backslash escapes (or to the end of [s]). *)
Fixpoint braces_outside (st : quoting) (s : string) : nat :=
  match s with
  | EmptyString => 0
  | String c t =>
      match st with
      | Outside =>
          if Ascii.eqb c dq then braces_outside Inside t
          else (if Ascii.eqb c "{" then 1 else 0) + braces_outside Outside t
      | Inside =>
          if Ascii.eqb c backslash then braces_outside Escaped t
          else if Ascii.eqb c dq then braces_outside Outside t
          else braces_outside Inside t
      | Escaped => braces_outside Inside t
      end
  end.

(** A character that neither opens a string literal nor is an opening
    brace. *)
Definition plain_char (c : ascii) : bool :=
  negb (Ascii.eqb c dq) && negb (Ascii.eqb c "{").

(** [rest] is [s] after a run of plain characters. *)
Definition consumes_plain (s rest : string) : Prop :=
  exists pre, s = pre ++ rest /\ all_chars plain_char pre = true.

(** The quoting state in which the scan of a string literal stands. *)
Definition quoting_of (m : smode) : quoting :=
  match m with
  | SPlain => Inside
  | SEscape => Escaped
  | SHex _ _ => Inside
  end.

End Json.

(** ** Structured-Hint Parser: [parse_query_llm] *)

Module HintParser.

(** Why [parse_query_llm] returns [None], after the message it shows:
    [KeyNotFound] for "Together API key not found", [ApiError] for "LLM API
    error", [DidNotReturnJson] for "LLM did not return JSON" (the
    [UnstructuredResponse] of the specification), [ParsingError] for
    "Parsing error". *)
Inductive failure : Type :=
| KeyNotFound
| ApiError
| DidNotReturnJson
| ParsingError.

Definition nl : string := String (ascii_of_nat 10) EmptyString.

(** The f-string of lines 73-79. *)
Definition prompt (query : string) : string :=
  nl ++ q "    Extract structured filters from this query: `" ++ query
     ++ q "`." ++ nl
     ++ "    Return JSON with fields: category, follower_filter (>,<,= value), sort_by."
     ++ nl
     ++ "    Example:" ++ nl
     ++ q "    Input: `Show top fashion creators with >10000 followers`" ++ nl
     ++ q "    Output: {`category`:`fashion`,`follower_filter`:`>10000`,`sort_by`:`engagement rate`}"
     ++ nl
     ++ "    ".

(** The shortest prefix of [s] that ends with a closing brace: what
    [.*?\}] matches at the head of [s] (with [re.DOTALL] the dot matches
    every character). *)
Fixpoint until_close (s : string) : option string :=
  match s with
  | EmptyString => None
  | String c t =>
      if Ascii.eqb c "}" then Some (String c EmptyString)
      else match until_close t with
           | Some b => Some (String c b)
           | None => None
           end
  end.

(** [re.search(r'\{.*?\}', s, re.DOTALL)], giving [group(0)]: the match at
    the leftmost position where there is one. *)
Fixpoint search_block (s : string) : option string :=
  match s with
  | EmptyString => None
  | String c t =>
      if Ascii.eqb c "{" then
        match until_close t with
        | Some b => Some (String c b)
        | None => search_block t
        end
      else search_block t
  end.

(** [c] does not occur in [s]. *)
Definition lacks (c : ascii) (s : string) : Prop :=
  all_chars (fun x => negb (Ascii.eqb x c)) s = true.

(** [block] is the first brace-delimited block of [s]: it starts at the
    first opening brace and ends at the first closing brace after it. *)
Definition first_block (s block : string) : Prop :=
  exists pre mid post,
    s = pre ++ "{" ++ mid ++ "}" ++ post
    /\ lacks "{" pre /\ lacks "}" mid
    /\ block = "{" ++ mid ++ "}".


Fixpoint count_char (c : ascii) (s : string) : nat :=
  match s with
  | EmptyString => 0
  | String x t => (if Ascii.eqb x c then 1 else 0) + count_char c t
  end.

Section Collaborators.

(** The objects [eval] may return. *)
Variable pyobj : Type.

(** [together.api_key]. *)
Variable api_key : option string.

(** [together.Complete.create] on a prompt: it raises, or returns a response
    whose ['choices'] entry is absent ([None]) or is the list of the texts
    of the choices. *)
Variable complete_create : string -> outcome (option (list string)).

(** The built-in [eval]. *)
Variable py_eval : string -> outcome pyobj.

(** What was decoded, and by which decoder. *)
Inductive parsed : Type :=
| FromJson (v : Json.value)
| FromEval (o : pyobj).

(** The value of [parse_query_llm]: the decoded object, or [None]. *)
Inductive reply : Type :=
| Hint (p : parsed)
| NoHint (why : failure).

(** Lines 96-99: strict decoding after the single quotes are turned into
    double quotes; if that raises, [eval] of the untouched text. *)
Definition decode_block (json_str : string) : outcome parsed :=
  match Json.loads (replace_char sq dq json_str) with
  | Some v => Ok (FromJson v)
  | None =>
      match py_eval json_str with
      | Ok o => Ok (FromEval o)
      | Raise e => Raise e
      end
  end.

(** Lines 91-103, on the text of the first choice. *)
Definition parse_text (text : string) : outcome reply :=
  let parsed_text := strip text in
  match search_block parsed_text with
  | Some json_str =>
      match decode_block json_str with
      | Ok p => Ok (Hint p)
      | Raise e => Raise e
      end
  | None => Ok (NoHint DidNotReturnJson)
  end.

(** Lines 104-106: [except Exception as e] formats [e] into the message of
    the parsing error and returns [None]; when formatting [e] raises, that
    exception leaves the handler.  An exception that is no [Exception] goes
    on. *)
Definition except_Exception (r : outcome reply) : outcome reply :=
  match r with
  | Raise e =>
      if is_Exception e then
        match format_raises e with
        | Some raised => Raise raised
        | None => Ok (NoHint ParsingError)
        end
      else Raise e
  | Ok v => Ok v
  end.

Definition key_available : bool :=
  match api_key with
  | Some k => truthy k
  | None => false
  end.

Definition parse_query_llm (query : string) : outcome reply :=
  if negb key_available then Ok (NoHint KeyNotFound)
  else
    except_Exception
      match complete_create (prompt query) with
      | Raise e => Raise e
      | Ok None => Ok (NoHint ApiError)
      | Ok (Some []) => Ok (NoHint ApiError)
      | Ok (Some (text :: _)) => parse_text text
      end.

End Collaborators.

Arguments FromJson {pyobj} v.
Arguments FromEval {pyobj} o.
Arguments Hint {pyobj} p.
Arguments NoHint {pyobj} why.

(** A reply that is a JSON object with an object inside. *)
Definition nested_reply : string := q "{`a`:`',`,`:1,`:{`:2}`:3}}".

(** A reply with the hint fields and an object inside. *)
Definition plain_nested_reply : string :=
  q "{`category`: {`name`: `fashion`}, `follower_filter`: `>10000`}".

(** A reply with an object inside and a string literal left open. *)
Definition open_string_reply : string := q "{`category`: {`name`: `x}".

(** A reply with text around the object and a second block after it. *)
Definition chatty_reply : string :=
  q "  Here you go: {`category`:`fashion`,`follower_filter`:`>10000`} or {x}  ".


(** An interpreter that is configured and answers [text], with an [eval]
    that raises [SyntaxError]. *)
Definition answering (text : string) (query : string) : outcome (reply unit) :=
  parse_query_llm unit (Some "key") (fun _ => Ok (Some [text]))
    (fun _ => Raise SyntaxError) query.

End HintParser.

(** ** The worked scenario of the specification (section 8) *)

Module Scenario.

Definition A : row :=
  {| name := "A"; category := Some "fashion"; follower_count := 20000;
     engagement_rate := Some 5.0%Q; average_likes_post := Some 100%Q;
     average_comments_post := Some 20%Q |}.

Definition B : row :=
  {| name := "B"; category := Some "fashion"; follower_count := 10000;
     engagement_rate := Some 8.0%Q; average_likes_post := Some 50%Q;
     average_comments_post := Some 10%Q |}.

Definition records : frame := [A; B].

(** A row whose category is the empty text. *)
Definition uncategorised : row :=
  {| name := "U"; category := Some ""; follower_count := 300;
     engagement_rate := Some 2.0%Q; average_likes_post := Some 5%Q;
     average_comments_post := Some 1%Q |}.

(** The call of the scenario, as what it may produce. *)
Definition ranked_scenario : outcome (list scored) -> Prop :=
  rank_creators records (Some "fashion") (Some ">5000") 0.5%Q 0.3%Q 0.2%Q.

(** The two rows of the result. *)
Definition scored_A : scored := score_row (Some 20000%Z) 0.5%Q 0.3%Q 0.2%Q A.
Definition scored_B : scored := score_row (Some 20000%Z) 0.5%Q 0.3%Q 0.2%Q B.

Import PrimFloat.
#[local] Set Warnings "-inexact-float".

(** Line 136 in [float64] arithmetic, as pandas evaluates it (the sums
    associate to the left); the literals are the nearest [float64]. *)
Definition score_float64 (engagement w_eng follower_score w_fol
    avg_likes_comments w_likes : PrimFloat.float) : PrimFloat.float :=
  PrimFloat.add
    (PrimFloat.add (PrimFloat.mul engagement w_eng)
                   (PrimFloat.mul follower_score w_fol))
    (PrimFloat.mul avg_likes_comments w_likes).

Definition score_A_float64 : PrimFloat.float :=
  score_float64 5.0%float 0.5%float (PrimFloat.div 20000%float 20000%float)
    0.3%float (PrimFloat.add 100%float 20%float) 0.2%float.

Definition score_B_float64 : PrimFloat.float :=
  score_float64 8.0%float 0.5%float (PrimFloat.div 10000%float 20000%float)
    0.3%float (PrimFloat.add 50%float 10%float) 0.2%float.
#[local] Set Warnings "+inexact-float".

End Scenario.

(** ** Loading the table: [load_data] and the category vocabulary *)

Module Loader.

(** Line 27 on one column name: [col.strip().lower().replace(" ", "_")]. *)
Definition normalize_column (col : string) : string :=
  replace_char " " "_" (lower (strip col)).

(** [s] is empty or starts with a character that is not white space. *)
Definition clean_front (s : string) : Prop :=
  match s with
  | String c _ => is_space c = false
  | EmptyString => True
  end.

Definition cell_eqb (a b : option string) : bool :=
  match a, b with
  | Some x, Some y => String.eqb x y
  | None, None => true
  | _, _ => false
  end.

(** [Series.unique()]: the distinct cells in the order of their first
    appearance; the missing cell (NaN) is one of them when it occurs. *)
Fixpoint unique (cells : list (option string)) : list (option string) :=
  match cells with
  | [] => []
  | c :: rest => c :: filter (fun d => negb (cell_eqb c d)) (unique rest)
  end.

(** Line 32: [df['category'].unique()]. *)
Definition categories (df : frame) : list (option string) :=
  unique (map category df).

(** [extract_category_basic] on the array of line 32.  A missing cell is a
    [float], and [category.lower()] on it raises [AttributeError]. *)
Fixpoint first_match_cells (query_lower : string)
    (categories : list (option string)) : outcome (option string) :=
  match categories with
  | [] => Ok None
  | None :: _ => Raise AttributeError
  | Some category :: rest =>
      if contains (lower category) query_lower then Ok (Some category)
      else first_match_cells query_lower rest
  end.

Definition extract_category_cells (query : string)
    (categories : list (option string)) : outcome (option string) :=
  let query_lower := lower query in
  first_match_cells query_lower categories.

End Loader.

Import Loader.

(** ** The query history of the session (lines 44-59) *)

Module History.

(** Lines 54-55: a non-empty query that differs from the last entry is
    appended. *)
Definition append_query (query : string) (query_history : list string)
  : list string :=
  if truthy query
     && match query_history with
        | [] => true
        | _ :: _ => negb (String.eqb (last query_history "") query)
        end
  then (query_history ++ [query])%list
  else query_history.

(** Line 58: [query_history[-5:][::-1]]. *)
Definition shown (query_history : list string) : list string :=
  List.rev (skipn (List.length query_history - 5) query_history).

(** The history after the script ran once for each query of [queries], from
    the empty history of line 45. *)
Definition session (queries : list string) : list string :=
  fold_left (fun h query => append_query query h) queries [].

(** No entry is followed by an equal entry. *)
Fixpoint no_repeat (h : list string) : Prop :=
  match h with
  | a :: t =>
      match t with
      | b :: _ => a <> b /\ no_repeat t
      | [] => True
      end
  | [] => True
  end.

End History.

(** ** The main script without the interpreter (lines 145, 203-245) *)

Module Main.

(** Lines 204-210: [selected] is the value of the select box (an entry of
    the vocabulary; [None] when it is not a string); a detected category
    whose name is not empty replaces it. *)
Definition detect_category (selected : option string) (query : string)
    (categories : list (option string)) : outcome (option string) :=
  match extract_category_cells query categories with
  | Raise e => Raise e
  | Ok (Some cat_basic) =>
      Ok (if truthy cat_basic then Some cat_basic else selected)
  | Ok None => Ok selected
  end.

(** What the script shows: the invitation to enter a query, the warning
    that no creator was found, or the rows of the five expanders and of the
    table of ten. *)
Inductive view : Type :=
| EnterQuery
| NoCreators
| Results (details table : list scored).

(** Lines 223-245. *)
Definition display (ranked_df : list scored) : view :=
  match ranked_df with
  | [] => NoCreators
  | _ :: _ => Results (firstn 5 ranked_df) (firstn 10 ranked_df)
  end.

(** Lines 145 and 203-245: one run of the script with the interpreter
    switched off, as what it may produce. *)
Definition run_basic (df : frame) (selected : option string)
    (query follower_filter : string) (w_eng w_fol w_likes : Q)
    (out : outcome view) : Prop :=
  if truthy query then
    match detect_category selected query (categories df) with
    | Raise e => out = Raise e
    | Ok category =>
        exists ranked,
          run_ranking df category follower_filter w_eng w_fol w_likes ranked
          /\ out = match ranked with
                   | Ok ranked_df => Ok (display ranked_df)
                   | Raise e => Raise e
                   end
    end
  else out = Ok EnterQuery.

End Main.

(** ** More on the decoder: the bottom of the stack *)

Module JsonStack.

(** The outermost container being read is an object. *)
Fixpoint bottom_object (stack : list Json.container) : bool :=
  match stack with
  | [] => false
  | c :: rest =>
      match rest with
      | [] => match c with Json.InObject _ _ => true | Json.InArray _ => false end
      | _ :: _ => bottom_object rest
      end
  end.

End JsonStack.

(** Sample inputs for the properties below. *)

Module Samples.

(** A reply whose block is an expression, not an object. *)
Definition expression_reply : string := "{exit()}".

(** A comparison of 4301 digits. *)
Definition long_comparison : string := String ">" (repeat_char "1" 4301).

(** A table with a row whose category is missing. *)
Definition with_missing_category : frame :=
  [Scenario.A;
   {| name := "N"; category := None; follower_count := 10;
      engagement_rate := None; average_likes_post := None;
      average_comments_post := None |};
   Scenario.B].

End Samples.

(** * Properties *)

Section StringFacts.

Lemma append_empty_r (s : string) : s ++ "" = s.
Proof. induction s as [|c t IH]; simpl; [reflexivity | now rewrite IH]. Qed.

Lemma append_assoc (a b c : string) : (a ++ b) ++ c = a ++ (b ++ c).
Proof. induction a as [|x a IH]; simpl; [reflexivity | now rewrite IH]. Qed.

Lemma startswith_spec (p s : string) :
  startswith p s = true <-> exists r, s = p ++ r.
Proof.
  revert s. induction p as [|a p IH]; intros s; simpl.
  - split; [intros _; now exists s | reflexivity].
  - destruct s as [|b s].
    + split; [discriminate | intros [r Hr]; discriminate].
    + rewrite andb_true_iff, Ascii.eqb_eq, IH. split.
      * intros [-> [r ->]]. now exists r.
      * intros [r Hr]. injection Hr as -> ->. split; [reflexivity | now exists r].
Qed.

Lemma contains_spec (needle hay : string) :
  contains needle hay = true <-> occurs_in needle hay.
Proof.
  unfold occurs_in. induction hay as [|c t IH].
  - simpl. rewrite orb_false_r, startswith_spec. split.
    + intros [r Hr]. now exists "", r.
    + intros [[|x a] [b Hab]]; [now exists b | discriminate].
  - cbn [contains]. rewrite orb_true_iff, startswith_spec, IH. split.
    + intros [[r Hr] | [a [b Hab]]].
      * now exists "", r.
      * exists (String c a), b. simpl. now rewrite Hab.
    + intros [[|x a] [b Hab]].
      * left. now exists b.
      * right. injection Hab as -> ->. now exists a, b.
Qed.

End StringFacts.

Section ResolverFacts.
Import Resolver.

Lemma first_match_some (ql : string) (cats : list string) (c : string) :
  first_match ql cats = Some c <->
  exists pre post, cats = (pre ++ c :: post)%list
    /\ contains (lower c) ql = true
    /\ Forall (fun d => contains (lower d) ql = false) pre.
Proof.
  induction cats as [|d cats IH]; simpl.
  - split; [discriminate | intros [[|? ?] [? [H _]]]; discriminate].
  - destruct (contains (lower d) ql) eqn:Hd.
    + split.
      * intros [= <-]. exists [], cats. repeat split; [assumption | constructor].
      * intros [[|x pre] [post [Hc [Hm Hpre]]]]; simpl in Hc.
        -- now injection Hc as ->.
        -- injection Hc as -> _. inversion Hpre; congruence.
    + rewrite IH. split.
      * intros [pre [post [-> [Hm Hpre]]]].
        exists (d :: pre), post. repeat split; [assumption | now constructor].
      * intros [[|x pre] [post [Hc [Hm Hpre]]]]; simpl in Hc.
        -- injection Hc as -> _. congruence.
        -- injection Hc as -> ->. inversion Hpre; subst.
           exists pre, post. now repeat split.
Qed.

Lemma first_match_none (ql : string) (cats : list string) :
  first_match ql cats = None <->
  Forall (fun d => contains (lower d) ql = false) cats.
Proof.
  induction cats as [|d cats IH]; simpl.
  - split; [constructor | reflexivity].
  - destruct (contains (lower d) ql) eqn:Hd.
    + split; [discriminate | intros H; inversion H; congruence].
    + rewrite IH. split; [now constructor | intros H; now inversion H].
Qed.

Lemma not_matches_iff (query d : string) :
  contains (lower d) (lower query) = false <-> ~ matches query d.
Proof.
  unfold matches. rewrite <- contains_spec.
  destruct (contains (lower d) (lower query)); split; congruence.
Qed.

End ResolverFacts.

Section UnicodeFacts.
Import Unicode.

Lemma uchar_eqb_eq (a b : uchar) : uchar_eqb a b = true <-> a = b.
Proof.
  destruct a as [x| | |], b as [y| | |]; simpl;
    try (split; [discriminate | intros [=]]); try (split; reflexivity).
  rewrite Ascii.eqb_eq. split; [now intros -> | now intros [= ->]].
Qed.

Lemma ustartswith_spec (p s : ustring) :
  Unicode.startswith p s = true <-> exists r, s = (p ++ r)%list.
Proof.
  revert s. induction p as [|a p IH]; intros s; simpl.
  - split; [intros _; now exists s | reflexivity].
  - destruct s as [|b s].
    + split; [discriminate | intros [r Hr]; discriminate].
    + rewrite andb_true_iff, uchar_eqb_eq, IH. split.
      * intros [-> [r ->]]. now exists r.
      * intros [r Hr]. injection Hr as -> ->.
        split; [reflexivity | now exists r].
Qed.

Lemma ucontains_spec (needle hay : ustring) :
  Unicode.contains needle hay = true <-> Unicode.occurs_in needle hay.
Proof.
  unfold Unicode.occurs_in. induction hay as [|c t IH].
  - simpl. rewrite orb_false_r, ustartswith_spec. split.
    + intros [r Hr]. now exists [], r.
    + intros [[|x a] [b Hab]]; [now exists b | discriminate].
  - cbn [Unicode.contains]. rewrite orb_true_iff, ustartswith_spec, IH. split.
    + intros [[r Hr] | [a [b Hab]]].
      * now exists [], r.
      * exists (c :: a), b. simpl. now rewrite Hab.
    + intros [[|x a] [b Hab]].
      * left. now exists b.
      * right. injection Hab as -> ->. now exists a, b.
Qed.

Lemma ufirst_match_some (ql : ustring) (cats : list ustring) (c : ustring) :
  Unicode.first_match ql cats = Some c <->
  exists pre post, cats = (pre ++ c :: post)%list
    /\ Unicode.contains (Unicode.lower c) ql = true
    /\ Forall (fun d => Unicode.contains (Unicode.lower d) ql = false) pre.
Proof.
  induction cats as [|d cats IH]; simpl.
  - split; [discriminate | intros [[|? ?] [? [H _]]]; discriminate].
  - destruct (Unicode.contains (Unicode.lower d) ql) eqn:Hd.
    + split.
      * intros [= <-]. exists [], cats. repeat split; [assumption | constructor].
      * intros [[|x pre] [post [Hc [Hm Hpre]]]]; simpl in Hc.
        -- now injection Hc as ->.
        -- injection Hc as -> _. inversion Hpre; congruence.
    + rewrite IH. split.
      * intros [pre [post [-> [Hm Hpre]]]].
        exists (d :: pre), post. repeat split; [assumption | now constructor].
      * intros [[|x pre] [post [Hc [Hm Hpre]]]]; simpl in Hc.
        -- injection Hc as -> _. congruence.
        -- injection Hc as -> ->. inversion Hpre; subst.
           exists pre, post. now repeat split.
Qed.

Lemma ufirst_match_none (ql : ustring) (cats : list ustring) :
  Unicode.first_match ql cats = None <->
  Forall (fun d => Unicode.contains (Unicode.lower d) ql = false) cats.
Proof.
  induction cats as [|d cats IH]; simpl.
  - split; [constructor | reflexivity].
  - destruct (Unicode.contains (Unicode.lower d) ql) eqn:Hd.
    + split; [discriminate | intros H; inversion H; congruence].
    + rewrite IH. split; [now constructor | intros H; now inversion H].
Qed.

Lemma not_umatches_iff (query d : ustring) :
  Unicode.contains (Unicode.lower d) (Unicode.lower query) = false
  <-> ~ Unicode.matches query d.
Proof.
  unfold Unicode.matches. rewrite <- ucontains_spec.
  destruct (Unicode.contains (Unicode.lower d) (Unicode.lower query));
    split; congruence.
Qed.

(** Without a capital sigma, lower-casing is a map of characters. *)
Lemma lower_from_without_sigma (s : ustring) :
  ~ In CapitalSigma s ->
  forall after_cased,
    lower_from after_cased s = map (fun c => lower_at false c []) s.
Proof.
  induction s as [|c s IH]; intros Hs after_cased; [reflexivity|].
  cbn [lower_from map]. rewrite IH by (intros H; apply Hs; now right).
  f_equal. destruct c; try reflexivity. exfalso. apply Hs. now left.
Qed.

(** What comes before a text changes nothing in its lower case but the
    capital sigmas. *)
Lemma lower_from_app (a rest : ustring) :
  forall after_cased,
    exists front after_cased',
      lower_from after_cased (a ++ rest)%list
      = (front ++ lower_from after_cased' rest)%list.
Proof.
  induction a as [|c a IH]; intros after_cased.
  - now exists [], after_cased.
  - destruct (IH (after after_cased c)) as [front [p' H]].
    exists (lower_at after_cased c (a ++ rest)%list :: front), p'.
    cbn [app lower_from]. now rewrite H.
Qed.

Lemma lower_from_prefix_without_sigma (n rest : ustring) :
  ~ In CapitalSigma n ->
  forall after_cased,
    exists after_cased',
      lower_from after_cased (n ++ rest)%list
      = (map (fun c => lower_at false c []) n
         ++ lower_from after_cased' rest)%list.
Proof.
  induction n as [|c n IH]; intros Hn after_cased.
  - now exists after_cased.
  - destruct (IH (fun H => Hn (or_intror H)) (after after_cased c))
      as [p' H].
    exists p'. cbn [app lower_from map]. rewrite H. f_equal.
    destruct c; try reflexivity. exfalso. apply Hn. now left.
Qed.

Lemma lower_of_latin1 (s : string) :
  forall after_cased,
    lower_from after_cased (of_latin1 s) = of_latin1 (PyStr.lower s).
Proof.
  induction s as [|c s IH]; intros after_cased; [reflexivity|].
  cbn [of_latin1 lower_from PyStr.lower lower_at]. now rewrite IH.
Qed.

Lemma startswith_of_latin1 (p s : string) :
  Unicode.startswith (of_latin1 p) (of_latin1 s) = PyStr.startswith p s.
Proof.
  revert s. induction p as [|a p IH]; intros s; [reflexivity|].
  destruct s as [|b s]; [reflexivity|]. simpl. now rewrite IH.
Qed.

Lemma contains_of_latin1 (needle hay : string) :
  Unicode.contains (of_latin1 needle) (of_latin1 hay)
  = PyStr.contains needle hay.
Proof.
  induction hay as [|c hay IH];
    cbn [of_latin1 Unicode.contains PyStr.contains].
  - now rewrite <- (startswith_of_latin1 needle "").
  - now rewrite <- (startswith_of_latin1 needle (String c hay)), IH.
Qed.

Lemma first_match_of_latin1 (ql : string) (cats : list string) :
  Unicode.first_match (of_latin1 ql) (map of_latin1 cats)
  = option_map of_latin1 (Resolver.first_match ql cats).
Proof.
  induction cats as [|c cats IH]; [reflexivity|].
  cbn [map Unicode.first_match Resolver.first_match].
  unfold Unicode.lower. rewrite lower_of_latin1, contains_of_latin1.
  destruct (PyStr.contains (PyStr.lower c) ql); [reflexivity | exact IH].
Qed.

(** C6 (amended): [extract_category_basic] returns the first category, in
    the order of the vocabulary, whose lower-cased name occurs in the
    lower-cased query, and nothing exactly when no category so occurs.  A
    query that contains a known category name up to letter case, in an
    occurrence without capital sigma, always gets a category.  On texts of
    U+0000..U+00FF the
    function is the one on plain strings, whose [lower] turns [A]-[Z] and
    the accented capitals into the small letters. *)
Theorem extract_category_basic_first_match :
  forall (query : ustring) (categories : list ustring),
    (forall c, Unicode.extract_category_basic query categories = Some c <->
               exists pre post, categories = (pre ++ c :: post)%list
                 /\ Unicode.matches query c
                 /\ Forall (fun d => ~ Unicode.matches query d) pre)
    /\ (Unicode.extract_category_basic query categories = None <->
        Forall (fun d => ~ Unicode.matches query d) categories)
    /\ (forall c a n b,
          In c categories ->
          query = (a ++ n ++ b)%list ->
          Unicode.lower n = Unicode.lower c ->
          ~ In CapitalSigma n ->
          exists c', Unicode.extract_category_basic query categories = Some c'
                     /\ In c' categories /\ Unicode.matches query c')
    /\ (forall (text : string) (names : list string),
          query = of_latin1 text -> categories = map of_latin1 names ->
          Unicode.extract_category_basic query categories
          = option_map of_latin1
              (Resolver.extract_category_basic text names)
          /\ Unicode.lower query = of_latin1 (PyStr.lower text))
    /\ PyStr.lower "Top FASHION Creators" = "top fashion creators".
Proof.
  intros query categories. unfold Unicode.extract_category_basic.
  assert (Hall : forall l,
    Forall (fun d => Unicode.contains (Unicode.lower d) (Unicode.lower query)
                     = false) l <->
    Forall (fun d => ~ Unicode.matches query d) l).
  { intros l. rewrite !Forall_forall. split; intros H d Hd;
      apply not_umatches_iff; auto. }
  split; [|split; [|split; [|split]]].
  - intros c. rewrite ufirst_match_some. unfold Unicode.matches at 1.
    split; intros [pre [post [Hc [Hm Hpre]]]]; exists pre, post;
      (split; [exact Hc | split]).
    + now apply ucontains_spec.
    + now apply Hall.
    + now apply ucontains_spec.
    + now apply Hall.
  - rewrite ufirst_match_none. apply Hall.
  - intros c a n b Hin Hq Hn Hs.
    assert (Hm : Unicode.matches query c).
    { unfold Unicode.matches, Unicode.lower in *.
      rewrite <- Hn, (lower_from_without_sigma n Hs), Hq.
      destruct (lower_from_app a (n ++ b)%list false) as [front [p Ha]].
      destruct (lower_from_prefix_without_sigma n b Hs p) as [p' Hb].
      rewrite Ha, Hb. now eexists _, _. }
    destruct (Unicode.first_match (Unicode.lower query) categories)
      as [c'|] eqn:E.
    + exists c'. split; [reflexivity|].
      apply ufirst_match_some in E. destruct E as [pre [post [-> [Hc' _]]]].
      split; [apply in_or_app; right; now left | now apply ucontains_spec].
    + exfalso. apply ufirst_match_none in E. rewrite Forall_forall in E.
      specialize (E c Hin). apply not_umatches_iff in E. contradiction.
  - intros text names -> ->. unfold Unicode.lower.
    rewrite lower_of_latin1. split; [|reflexivity].
    apply first_match_of_latin1.
  - reflexivity.
Qed.

Lemma extract_category_basic_first_match_witness :
  (exists c',
     Unicode.extract_category_basic (of_latin1 "Top FASHION creators")
       [of_latin1 "tech"; of_latin1 "Fashion"] = Some c'
     /\ In c' [of_latin1 "tech"; of_latin1 "Fashion"]
     /\ Unicode.matches (of_latin1 "Top FASHION creators") c')
  /\ Unicode.extract_category_basic (of_latin1 "Top FASHION creators")
       [of_latin1 "tech"; of_latin1 "Fashion"]
     = Some (of_latin1 "Fashion").
Proof.
  split; [|reflexivity].
  apply (proj1 (proj2 (proj2 (extract_category_basic_first_match
           (of_latin1 "Top FASHION creators")
           [of_latin1 "tech"; of_latin1 "Fashion"])))
           (of_latin1 "Fashion") (of_latin1 "Top ") (of_latin1 "FASHION")
           (of_latin1 " creators")).
  - right. now left.
  - reflexivity.
  - reflexivity.
  - cbn. intros H.
    repeat (destruct H as [H | H]; [discriminate H|]). exact H.
Defined.

(** C6 as the specification words it: a query that contains a known
    category name would always get a category.  The query [sigma_query]
    contains the category [sigma_name] letter for letter, yet nothing is
    returned: in the name the capital sigma ends a word and becomes the
    final sigma, in the query a letter follows it and it becomes the small
    sigma. *)
Lemma extract_category_basic_final_sigma :
  In sigma_name [sigma_name]
  /\ Unicode.occurs_in sigma_name sigma_query
  /\ Unicode.lower sigma_name = [L1 "a"; FinalSigma]
  /\ Unicode.lower sigma_query
     = (L1 "a" :: SmallSigma :: of_latin1 "a creators")%list
  /\ Unicode.extract_category_basic sigma_query [sigma_name] = None.
Proof.
  split; [now left|]. split; [|repeat split].
  exists [], (of_latin1 "A creators"). reflexivity.
Qed.

End UnicodeFacts.


Section RankingFacts.

Lemma sort_values_desc_pair (a b : scored) (ranked : list scored) :
  (Score b < Score a)%Q ->
  sort_values_desc [a; b] ranked <-> ranked = [a; b].
Proof.
  intros Hlt. unfold sort_values_desc. split.
  - intros [Hp Hs]. apply Permutation_length_2_inv in Hp.
    destruct Hp as [-> | ->]; [reflexivity|].
    exfalso. inversion Hs as [|x l _ Hall]; subst.
    inversion Hall as [|y l' Hge _]; subst.
    unfold score_ge in Hge. apply Qle_not_lt in Hge. contradiction.
  - intros ->. split; [apply Permutation_refl|].
    repeat constructor. unfold score_ge. now apply Qlt_le_weak.
Qed.


Lemma map_src_score_row (m : option Z) (we wf wl : Q) (df : frame) :
  map src (map (score_row m we wf wl) df) = df.
Proof. induction df as [|r df IH]; simpl; [reflexivity | now rewrite IH]. Qed.

Lemma insert_desc_perm (x : scored) (l : list scored) :
  Permutation (x :: l) (insert_desc x l).
Proof.
  induction l as [|y t IH]; simpl; [apply Permutation_refl|].
  destruct (Qle_bool (Score x) (Score y)).
  - eapply perm_trans; [apply perm_swap | now apply perm_skip].
  - apply Permutation_refl.
Qed.

Lemma insert_desc_sorted (x : scored) (l : list scored) :
  StronglySorted score_ge l -> StronglySorted score_ge (insert_desc x l).
Proof.
  induction l as [|y t IH]; intros Hs; simpl.
  - repeat constructor.
  - inversion Hs as [|y' t' Ht Hy]; subst.
    destruct (Qle_bool (Score x) (Score y)) eqn:E.
    + constructor; [now apply IH|].
      apply Qle_bool_iff in E.
      eapply Permutation_Forall; [apply insert_desc_perm|].
      constructor; assumption.
    + assert (Hlt : (Score y < Score x)%Q).
      { apply Qnot_le_lt. intros H. apply Qle_bool_iff in H. congruence. }
      constructor; [assumption|].
      constructor; [unfold score_ge; now apply Qlt_le_weak|].
      eapply Forall_impl; [|exact Hy].
      intros z Hz. unfold score_ge in *.
      eapply Qle_trans; [exact Hz | now apply Qlt_le_weak].
Qed.

Lemma stable_sort_desc_sorts (l : list scored) :
  sort_values_desc l (stable_sort_desc l).
Proof.
  unfold sort_values_desc. induction l as [|x t [Hp Hs]]; simpl.
  - split; constructor.
  - split; [|now apply insert_desc_sorted].
    eapply perm_trans; [apply perm_skip, Hp | apply insert_desc_perm].
Qed.

Lemma apply_follower_filter_incl (op : ascii) (v : Z) (df : frame) :
  incl (apply_follower_filter op v df) df.
Proof.
  unfold apply_follower_filter.
  repeat match goal with |- context [if ?b then _ else _] => destruct b end;
    try apply incl_refl; apply incl_filter.
Qed.

Lemma filter_frame_incl (df : frame) (cat : string) (ff : option string)
    (df' : frame) :
  filter_frame df (Some cat) ff = Ok df' ->
  incl df' (filter (category_is (lower cat)) df).
Proof.
  unfold filter_frame. intros H.
  destruct ff as [ff|]; [|injection H as <-; apply incl_refl].
  destruct (truthy ff); [|injection H as <-; apply incl_refl].
  destruct (parse_comparison ff) as [[[op v]|]|e]; try discriminate;
    injection H as <-; [apply apply_follower_filter_incl | apply incl_refl].
Qed.

(** With a category given, the rows are filtered unless the text of the
    follower filter makes [int] raise. *)
Lemma filter_frame_some (df : frame) (cat : string) (ff : option string) :
  follower_filter_raises ff = None ->
  exists df', filter_frame df (Some cat) ff = Ok df'
              /\ incl df' (filter (category_is (lower cat)) df).
Proof.
  intros Hr.
  assert (H : exists df', filter_frame df (Some cat) ff = Ok df').
  { unfold filter_frame, follower_filter_raises in *.
    destruct ff as [ff|]; [|eexists; reflexivity].
    destruct (truthy ff); [|eexists; reflexivity].
    destruct (parse_comparison ff) as [[[op v]|]|e]; try discriminate;
      eexists; reflexivity. }
  destruct H as [df' H]. exists df'. split; [exact H|].
  now apply filter_frame_incl in H.
Qed.

Lemma filter_frame_raises (df : frame) (cat : string) (ff : option string)
    (e : exn) :
  follower_filter_raises ff = Some e ->
  filter_frame df (Some cat) ff = Raise e.
Proof.
  unfold filter_frame, follower_filter_raises.
  destruct ff as [ff|]; [|discriminate].
  destruct (truthy ff); [|discriminate].
  destruct (parse_comparison ff) as [[[op v]|]|e']; try discriminate;
    now intros [= ->].
Qed.

(** The only exception the follower filter raises is the [ValueError] of
    [int], on a comparison of more than [int_max_str_digits] digits. *)
Lemma parse_comparison_raises (text : string) (e : exn) :
  parse_comparison text = Raise e <->
  e = ValueError
  /\ exists op digits, re_match_comparison text = Some (op, digits)
                       /\ int_max_str_digits < String.length digits.
Proof.
  unfold parse_comparison, int_py.
  destruct (re_match_comparison text) as [[op ds]|].
  - destruct (String.length ds <=? int_max_str_digits) eqn:E.
    + split; [discriminate|].
      intros [_ [op' [ds' [[= <- <-] Hlt]]]].
      apply Nat.leb_le in E. lia.
    + apply Nat.leb_gt in E. split.
      * intros [= <-]. split; [reflexivity|]. now exists op, ds.
      * now intros [-> _].
  - split; [discriminate|]. now intros [_ [op [ds [H _]]]].
Qed.

(** With a category given, [rank_creators] returns a table unless the text
    of the follower filter makes [int] raise. *)
Lemma rank_creators_total (df : frame) (cat : string) (ff : option string)
    (we wf wl : Q) :
  follower_filter_raises ff = None ->
  exists ranked, rank_creators df (Some cat) ff we wf wl (Ok ranked).
Proof.
  intros Hr.
  destruct (filter_frame_some df cat ff Hr) as [df' [Hf _]].
  eexists. eapply rank_returns.
  - unfold score_frame. rewrite Hf. reflexivity.
  - apply stable_sort_desc_sorts.
Qed.

Lemma rank_creators_ok_inv (df : frame) (category ff : option string)
    (we wf wl : Q) (ranked : list scored) :
  rank_creators df category ff we wf wl (Ok ranked) ->
  exists df', filter_frame df category ff = Ok df'
    /\ Permutation (map (score_row (column_max df') we wf wl) df') ranked
    /\ StronglySorted score_ge ranked.
Proof.
  intros H. inversion H as [|l r Hl [Hp Hs]]; subst.
  unfold score_frame in Hl.
  destruct (filter_frame df category ff) as [df'|e]; [|discriminate].
  injection Hl as <-. now exists df'.
Qed.

Lemma ranked_sources (df' : frame) (m : option Z) (we wf wl : Q)
    (ranked : list scored) :
  Permutation (map (score_row m we wf wl) df') ranked ->
  Permutation df' (map src ranked).
Proof.
  intros Hp. rewrite <- (map_src_score_row m we wf wl df').
  now apply Permutation_map.
Qed.

End RankingFacts.

Section ScenarioFacts.
Import Scenario PrimFloat.

Lemma scenario_frame :
  score_frame records (Some "fashion") (Some ">5000") 0.5%Q 0.3%Q 0.2%Q
  = Ok [scored_A; scored_B].
Proof. reflexivity. Qed.

Lemma ranked_scenario_iff (out : outcome (list scored)) :
  ranked_scenario out <-> out = Ok [scored_A; scored_B].
Proof.
  unfold ranked_scenario. split.
  - intros H. inversion H as [e He | l ranked Hl Hs]; subst.
    + rewrite scenario_frame in He. discriminate.
    + rewrite scenario_frame in Hl. injection Hl as <-.
      apply sort_values_desc_pair in Hs; [now subst | reflexivity].
  - intros ->. eapply rank_returns; [apply scenario_frame|].
    apply sort_values_desc_pair; reflexivity.
Qed.

(** C1 (amended): in the worked scenario both records are returned, the
    follower score is 1 for A and 0.5 for B, the score is 26.8 for A
    (5.0*0.5 + 1.0*0.3 + 120*0.2) and 16.15 for B, and A is ranked
    first. *)
Theorem scenario_ranks_A_first :
  (forall out, ranked_scenario out <-> out = Ok [scored_A; scored_B])
  /\ src scored_A = A /\ src scored_B = B
  /\ (Follower_Score scored_A == 1.0)%Q
  /\ (Follower_Score scored_B == 0.5)%Q
  /\ (Score scored_A == 26.8)%Q
  /\ (Score scored_B == 16.15)%Q.
Proof.
  split; [exact ranked_scenario_iff | repeat split].
Qed.

(** C1 as the specification words it: the score of A would be 27.3; it is
    not. *)
Lemma scenario_score_A_is_not_27_3 :
  ~ (exists a b, ranked_scenario (Ok [a; b])
                 /\ src a = A /\ (Score a == 27.3)%Q).
Proof.
  intros [a [b [H [_ Hs]]]].
  apply ranked_scenario_iff in H. injection H as -> ->.
  vm_compute in Hs. discriminate.
Qed.

(** The [float64] computation of the two scores gives the [float64]
    nearest to 26.8 and to 16.15: the figures of the rational model are the
    ones pandas shows. *)
#[local] Set Warnings "-inexact-float".
Lemma scenario_scores_float64 :
  score_A_float64 = 26.8%float /\ score_B_float64 = 16.15%float.
Proof. split; reflexivity. Qed.
#[local] Set Warnings "+inexact-float".

End ScenarioFacts.

Section FollowerScoreFacts.

Lemma fold_max_lower (l : list Z) (a : Z) :
  (a <= fold_left Z.max l a)%Z
  /\ forall x, In x l -> (x <= fold_left Z.max l a)%Z.
Proof.
  revert a. induction l as [|y l IH]; intros a; simpl.
  - split; [lia | contradiction].
  - destruct (IH (Z.max a y)) as [H1 H2]. split; [lia|].
    intros x [<- | Hx]; [lia | now apply H2].
Qed.

Lemma fold_max_attained (l : list Z) (a : Z) :
  fold_left Z.max l a = a \/ In (fold_left Z.max l a) l.
Proof.
  revert a. induction l as [|y l IH]; intros a; simpl; [now left|].
  destruct (IH (Z.max a y)) as [H | H]; [|now right; right].
  rewrite H. destruct (Z.max_spec a y) as [[_ ->] | [_ ->]]; auto.
Qed.

Lemma column_max_upper (df : frame) (m : Z) (r : row) :
  column_max df = Some m -> In r df -> (follower_count r <= m)%Z.
Proof.
  destruct df as [|r0 df]; [discriminate|]. simpl. intros [= <-] Hin.
  destruct (fold_max_lower (map follower_count df) (follower_count r0)) as [H1 H2].
  destruct Hin as [<- | Hin]; [exact H1|].
  apply H2. now apply in_map.
Qed.

Lemma column_max_attained (df : frame) (m : Z) :
  column_max df = Some m -> exists r, In r df /\ follower_count r = m.
Proof.
  destruct df as [|r0 df]; [discriminate|]. simpl. intros [= <-].
  destruct (fold_max_attained (map follower_count df) (follower_count r0)) as [H | H].
  - exists r0. split; [now left | now rewrite H].
  - apply in_map_iff in H. destruct H as [r [Hr Hin]].
    exists r. split; [now right | exact Hr].
Qed.

Lemma column_max_none (df : frame) : column_max df = None <-> df = [].
Proof. destruct df; simpl; split; congruence. Qed.

Lemma inject_Z_pos (m : Z) : (0 < m)%Z -> (0 < inject_Z m)%Q.
Proof. intros H. unfold Qlt. simpl. lia. Qed.

Lemma follower_score_ratio (m : Z) (r : row) :
  (0 < m)%Z ->
  (follower_score (Some m) r == inject_Z (follower_count r) / inject_Z m)%Q.
Proof.
  intros Hm. unfold follower_score.
  apply Z.ltb_lt in Hm. rewrite Hm. reflexivity.
Qed.

Lemma ratio_le_1 (n m : Z) :
  (0 < m)%Z -> (n <= m)%Z -> (inject_Z n / inject_Z m <= 1)%Q.
Proof.
  intros Hm Hn. apply Qle_shift_div_r; [now apply inject_Z_pos|].
  rewrite Qmult_1_l. rewrite <- Zle_Qle. exact Hn.
Qed.

Lemma ratio_ge_0 (n m : Z) :
  (0 < m)%Z -> (0 <= n)%Z -> (0 <= inject_Z n / inject_Z m)%Q.
Proof.
  intros Hm Hn. apply Qle_shift_div_l; [now apply inject_Z_pos|].
  rewrite Qmult_0_l. change 0%Q with (inject_Z 0). rewrite <- Zle_Qle. exact Hn.
Qed.

Lemma ratio_self (m : Z) : (0 < m)%Z -> (inject_Z m / inject_Z m == 1)%Q.
Proof.
  intros Hm. apply Qmult_inv_r. intros H.
  apply inject_Z_pos in Hm. rewrite H in Hm. now apply Qlt_irrefl in Hm.
Qed.

Lemma score_frame_ok_inv (df : frame) (category ff : option string)
    (we wf wl : Q) (l : list scored) :
  score_frame df category ff we wf wl = Ok l ->
  l = map (score_row (column_max (map src l)) we wf wl) (map src l)
  /\ filter_frame df category ff = Ok (map src l).
Proof.
  unfold score_frame.
  destruct (filter_frame df category ff) as [df'|e]; [|discriminate].
  intros [= <-]. rewrite map_src_score_row. split; reflexivity.
Qed.

(** C3: in the table [rank_creators] scores, when the largest follower count
    [m] of the filtered rows is positive, every row's [Follower_Score] is its
    follower count divided by [m], is at most 1, is at least 0 for a
    non-negative follower count, and is 1 for the rows that attain [m] (there
    is one); when the filtered table is empty or its largest follower count
    is 0, every [Follower_Score] is 0. *)
Theorem follower_score_normalized :
  forall (df : frame) (category ff : option string) (we wf wl : Q)
         (l : list scored),
    score_frame df category ff we wf wl = Ok l ->
    (forall m, column_max (map src l) = Some m -> (0 < m)%Z ->
       (forall s, In s l ->
          (Follower_Score s == inject_Z (follower_count (src s)) / inject_Z m)%Q
          /\ (Follower_Score s <= 1)%Q
          /\ ((0 <= follower_count (src s))%Z -> (0 <= Follower_Score s)%Q)
          /\ (follower_count (src s) = m -> (Follower_Score s == 1)%Q))
       /\ exists s, In s l /\ follower_count (src s) = m)
    /\ (column_max (map src l) = None \/ column_max (map src l) = Some 0%Z ->
        forall s, In s l -> (Follower_Score s == 0)%Q)
    /\ (column_max (map src l) = None <-> l = []).
Proof.
  intros df category ff we wf wl l Hl.
  apply score_frame_ok_inv in Hl. destruct Hl as [Hl _].
  set (df' := map src l) in *.
  assert (Hin : forall s, In s l ->
            In (src s) df' /\
            Follower_Score s = follower_score (column_max df') (src s)).
  { intros s Hs. split; [now apply in_map|].
    rewrite Hl in Hs. apply in_map_iff in Hs.
    destruct Hs as [r [<- _]]. reflexivity. }
  split; [|split].
  - intros m Hm Hpos. split.
    + intros s Hs. destruct (Hin s Hs) as [Hsrc ->]. rewrite Hm.
      pose proof (column_max_upper _ _ _ Hm Hsrc) as Hle.
      pose proof (follower_score_ratio m (src s) Hpos) as Hr.
      split; [exact Hr|]. rewrite Hr. split; [|split].
      * now apply ratio_le_1.
      * intros H0. now apply ratio_ge_0.
      * intros ->. now apply ratio_self.
    + destruct (column_max_attained _ _ Hm) as [r [Hr Hfc]].
      apply in_map_iff in Hr. destruct Hr as [s [<- Hs]]. now exists s.
  - intros Hm s Hs. destruct (Hin s Hs) as [_ ->].
    destruct Hm as [-> | ->]; reflexivity.
  - rewrite column_max_none. unfold df'. split.
    + intros H. now apply map_eq_nil in H.
    + intros ->. reflexivity.
Qed.

Lemma follower_score_normalized_witness :
  score_frame Scenario.records (Some "fashion") (Some ">5000") 0.5%Q 0.3%Q 0.2%Q
  = Ok [Scenario.scored_A; Scenario.scored_B]
  /\ (Follower_Score Scenario.scored_A == 1)%Q
  /\ (Follower_Score Scenario.scored_B <= 1)%Q.
Proof.
  split; [reflexivity|].
  destruct (follower_score_normalized Scenario.records
              (Some "fashion") (Some ">5000") 0.5%Q 0.3%Q 0.2%Q
              [Scenario.scored_A; Scenario.scored_B] eq_refl) as [H _].
  destruct (H 20000%Z eq_refl eq_refl) as [Hs _]. split.
  - destruct (Hs Scenario.scored_A (or_introl eq_refl)) as [_ [_ [_ H1]]].
    exact (H1 eq_refl).
  - destruct (Hs Scenario.scored_B (or_intror (or_introl eq_refl)))
      as [_ [Hle _]].
    exact Hle.
Defined.

End FollowerScoreFacts.

Section FollowerFilterFacts.

Lemma apply_follower_filter_in (op : ascii) (value : Z) (df : frame) (r : row) :
  is_cmp_op op = true ->
  In r (apply_follower_filter op value df) <->
  In r df /\ holds op (follower_count r) value.
Proof.
  unfold is_cmp_op, apply_follower_filter, holds. intros Hop.
  destruct (Ascii.eqb op ">") eqn:Egt; [|destruct (Ascii.eqb op "<") eqn:Elt;
    [|destruct (Ascii.eqb op "=") eqn:Eeq; [|discriminate]]].
  - apply Ascii.eqb_eq in Egt. subst op. rewrite filter_In, Z.gtb_ltb, Z.ltb_lt.
    split.
    + intros [H1 H2]. split; [exact H1|]. left. split; [reflexivity | lia].
    + intros [H1 [[_ H2] | [[H2 _] | [H2 _]]]]; try discriminate.
      split; [exact H1 | lia].
  - apply Ascii.eqb_eq in Elt. subst op. rewrite filter_In, Z.ltb_lt. split.
    + intros [H1 H2]. split; [exact H1|]. right. left. now split.
    + intros [H1 [[H2 _] | [[_ H2] | [H2 _]]]]; try discriminate.
      now split.
  - apply Ascii.eqb_eq in Eeq. subst op. rewrite filter_In, Z.eqb_eq. split.
    + intros [H1 H2]. split; [exact H1|]. right. right. now split.
    + intros [H1 [[H2 _] | [[H2 _] | [_ H2]]]]; try discriminate.
      now split.
Qed.

Lemma parse_comparison_op (text : string) (op : ascii) (value : Z) :
  parse_comparison text = Ok (Some (op, value)) ->
  is_cmp_op op = true /\ truthy text = true.
Proof.
  unfold parse_comparison, re_match_comparison.
  destruct text as [|c t]; [discriminate|].
  destruct (is_cmp_op c) eqn:Hc; [|discriminate].
  destruct (span_digits (lstrip t)) as [[|d ds] rest]; [discriminate|].
  destruct (int_py (String d ds)); [|discriminate].
  intros [= <- _]. now split.
Qed.

Lemma filter_frame_with_comparison (df : frame) (cat ff : string)
    (op : ascii) (value : Z) :
  parse_comparison ff = Ok (Some (op, value)) ->
  filter_frame df (Some cat) (Some ff)
  = Ok (apply_follower_filter op value (filter (category_is (lower cat)) df)).
Proof.
  intros Hp. unfold filter_frame.
  destruct (parse_comparison_op _ _ _ Hp) as [_ ->]. now rewrite Hp.
Qed.

Lemma rank_rows_with_comparison (df : frame) (cat ff : string) (op : ascii)
    (value : Z) (we wf wl : Q) (ranked : list scored) (r : row) :
  parse_comparison ff = Ok (Some (op, value)) ->
  rank_creators df (Some cat) (Some ff) we wf wl (Ok ranked) ->
  (In r (map src ranked) <->
   In r df /\ category_is (lower cat) r = true
   /\ holds op (follower_count r) value).
Proof.
  intros Hp H.
  apply rank_creators_ok_inv in H. destruct H as [df' [Hf [Hperm _]]].
  rewrite (filter_frame_with_comparison _ _ _ _ _ Hp) in Hf.
  injection Hf as <-. apply ranked_sources in Hperm.
  destruct (parse_comparison_op _ _ _ Hp) as [Hop _].
  split.
  - intros Hin. apply (Permutation_in _ (Permutation_sym Hperm)) in Hin.
    apply apply_follower_filter_in in Hin; [|exact Hop].
    destruct Hin as [Hin Hh]. apply filter_In in Hin. tauto.
  - intros [Hin [Hc Hh]]. apply (Permutation_in _ Hperm).
    apply apply_follower_filter_in; [exact Hop|].
    split; [|exact Hh]. apply filter_In. tauto.
Qed.

Lemma holds_gt (n value : Z) : holds ">" n value <-> (n > value)%Z.
Proof.
  unfold holds. split.
  - intros [[_ H] | [[H _] | [H _]]]; [exact H | discriminate | discriminate].
  - intros H. left. now split.
Qed.

(** C4: the follower filter [(op, value)], with [op] one of [>], [<], [=],
    keeps exactly the rows whose follower count stands in relation [op] to
    [value]; when [rank_creators] is called with a filter text read as
    [(op, value)], the rows of the result are exactly the rows of the
    category whose follower count does; with the filter [>10000] every row
    of the result has more than 10000 followers and no row of the category
    left out has. *)
Theorem follower_filter_keeps_exactly :
  (forall (op : ascii) (value : Z) (df : frame) (r : row),
     is_cmp_op op = true ->
     (In r (apply_follower_filter op value df) <->
      In r df /\ holds op (follower_count r) value))
  /\ (forall (df : frame) (cat ff : string) (op : ascii) (value : Z)
             (we wf wl : Q) (ranked : list scored) (r : row),
        parse_comparison ff = Ok (Some (op, value)) ->
        rank_creators df (Some cat) (Some ff) we wf wl (Ok ranked) ->
        (In r (map src ranked) <->
         In r df /\ category_is (lower cat) r = true
         /\ holds op (follower_count r) value))
  /\ (forall (df : frame) (cat : string) (we wf wl : Q)
             (ranked : list scored),
        rank_creators df (Some cat) (Some ">10000") we wf wl (Ok ranked) ->
        (forall s, In s ranked -> (follower_count (src s) > 10000)%Z)
        /\ (forall r, In r df -> category_is (lower cat) r = true ->
                      ~ In r (map src ranked) ->
                      ~ (follower_count r > 10000)%Z)).
Proof.
  split; [exact apply_follower_filter_in|].
  split; [exact rank_rows_with_comparison|].
  intros df cat we wf wl ranked H.
  assert (Hp : parse_comparison ">10000" = Ok (Some (">"%char, 10000%Z)))
    by reflexivity.
  split.
  - intros s Hs. apply holds_gt.
    apply (rank_rows_with_comparison _ _ _ _ _ _ _ _ _ (src s) Hp H).
    now apply in_map.
  - intros r Hin Hc Hout Hgt. apply Hout.
    apply (rank_rows_with_comparison _ _ _ _ _ _ _ _ _ r Hp H).
    repeat split; try assumption. now apply holds_gt.
Qed.

Lemma follower_filter_keeps_exactly_witness :
  (In Scenario.A (apply_follower_filter ">" 10000 Scenario.records) <->
   In Scenario.A Scenario.records
   /\ holds ">" (follower_count Scenario.A) 10000)
  /\ (In Scenario.B (map src [Scenario.scored_A; Scenario.scored_B]) <->
      In Scenario.B Scenario.records
      /\ category_is (lower "fashion") Scenario.B = true
      /\ holds ">" (follower_count Scenario.B) 5000).
Proof.
  split.
  - apply (proj1 follower_filter_keeps_exactly). reflexivity.
  - apply (proj1 (proj2 follower_filter_keeps_exactly) Scenario.records
             "fashion" ">5000" ">"%char 5000%Z 0.5%Q 0.3%Q 0.2%Q).
    + reflexivity.
    + eapply rank_returns; [reflexivity|].
      apply sort_values_desc_pair; reflexivity.
Defined.

End FollowerFilterFacts.

Section ComparisonFacts.

Lemma digit_not_space (c : ascii) : is_digit c = true -> is_space c = false.
Proof.
  unfold is_digit, is_space, between. intros H.
  apply andb_true_iff in H. destruct H as [H1 H2].
  apply Nat.leb_le in H1. apply Nat.leb_le in H2.
  repeat match goal with
         | |- context [?a <=? ?b] => destruct (Nat.leb_spec a b); try lia
         | |- context [?a =? ?b] => destruct (Nat.eqb_spec a b); try lia
         end; reflexivity.
Qed.

Lemma lstrip_app (ws s : string) :
  all_chars is_space ws = true ->
  match s with String c _ => is_space c = false | EmptyString => True end ->
  lstrip (ws ++ s) = s.
Proof.
  intros Hws Hs. induction ws as [|w ws IH]; simpl.
  - destruct s as [|c t]; [reflexivity|]. simpl. now rewrite Hs.
  - simpl in Hws. apply andb_true_iff in Hws. destruct Hws as [-> Hws].
    now apply IH.
Qed.

Lemma lstrip_split (s : string) :
  exists ws, s = ws ++ lstrip s /\ all_chars is_space ws = true.
Proof.
  induction s as [|c t [ws [Ht Hws]]].
  - now exists "".
  - simpl. destruct (is_space c) eqn:Hc.
    + exists (String c ws). simpl. rewrite Hc, Hws, <- Ht. now split.
    + now exists "".
Qed.

Lemma span_digits_app (ds rest : string) :
  all_chars is_digit ds = true -> starts_with_digit rest = false ->
  span_digits (ds ++ rest) = (ds, rest).
Proof.
  intros Hds Hrest. induction ds as [|d ds IH]; simpl.
  - destruct rest as [|c t]; [reflexivity|]. simpl in *. now rewrite Hrest.
  - simpl in Hds. apply andb_true_iff in Hds. destruct Hds as [-> Hds].
    now rewrite IH.
Qed.

Lemma span_digits_split (s ds rest : string) :
  span_digits s = (ds, rest) ->
  s = ds ++ rest /\ all_chars is_digit ds = true
  /\ starts_with_digit rest = false.
Proof.
  revert ds rest. induction s as [|c t IH]; simpl; intros ds rest.
  - intros [= <- <-]. now repeat split.
  - destruct (is_digit c) eqn:Hc.
    + destruct (span_digits t) as [ds' rest'].
      intros [= <- <-]. destruct (IH _ _ eq_refl) as [-> [Hd Hr]].
      simpl. rewrite Hc, Hd. now repeat split.
    + intros [= <- <-]. simpl. rewrite Hc. now repeat split.
Qed.

Lemma re_match_comparison_shape (text : string) (op : ascii) (digits : string) :
  re_match_comparison text = Some (op, digits) <->
  comparison_shape text op digits.
Proof.
  unfold comparison_shape. split.
  - unfold re_match_comparison. destruct text as [|c t]; [discriminate|].
    destruct (is_cmp_op c) eqn:Hc; [|discriminate].
    destruct (span_digits (lstrip t)) as [ds rest] eqn:Hsp.
    destruct ds as [|d ds]; [discriminate|]. intros [= <- <-].
    apply span_digits_split in Hsp. destruct Hsp as [Hl [Hd Hr]].
    destruct (lstrip_split t) as [ws [Ht Hws]].
    exists ws, rest. rewrite <- Hl, <- Ht.
    repeat split; try assumption. discriminate.
  - intros [ws [rest [-> [Hop [Hws [Hd [Hne Hr]]]]]]].
    unfold re_match_comparison. rewrite Hop.
    rewrite lstrip_app; [|exact Hws|].
    + rewrite (span_digits_app _ _ Hd Hr).
      destruct digits; [congruence | reflexivity].
    + destruct digits as [|d ds]; [congruence|]. simpl in *.
      apply andb_true_iff in Hd. destruct Hd as [Hd _].
      now apply digit_not_space.
Qed.

Lemma int_digits_app (acc : Z) (ds : string) (c : ascii) :
  int_digits acc (ds ++ String c "") = (10 * int_digits acc ds + digit_value c)%Z.
Proof.
  revert acc. induction ds as [|d ds IH]; intros acc; simpl;
    [reflexivity | apply IH].
Qed.

Lemma int_of_snoc (ds : string) (c : ascii) :
  int_of (ds ++ String c "") = (10 * int_of ds + digit_value c)%Z.
Proof. apply int_digits_app. Qed.

Lemma leading_space_is_no_comparison (lead rest : string) :
  lead <> EmptyString -> all_chars is_space lead = true ->
  re_match_comparison (lead ++ rest) = None.
Proof.
  intros Hne Hsp.
  destruct lead as [|c lead]; [congruence|]. simpl in *.
  apply andb_true_iff in Hsp. destruct Hsp as [Hc _].
  assert (Hop : is_cmp_op c = false).
  { unfold is_cmp_op.
    destruct (Ascii.eqb_spec c ">") as [->|_]; [discriminate Hc|].
    destruct (Ascii.eqb_spec c "<") as [->|_]; [discriminate Hc|].
    destruct (Ascii.eqb_spec c "=") as [->|_]; [discriminate Hc|].
    reflexivity. }
  now rewrite Hop.
Qed.

(** C5 (amended): on a text made of one of the operators [>], [<], [=] as
    first character, optional white space, one or more digits and any
    trailing text, [parse_comparison] returns the operator with the integer
    the (maximal run of) digits denote in base ten when there are at most
    4300 digits, and raises [ValueError] when there are more; it returns a
    comparison on no other text, raises on no other text, and returns
    nothing exactly on the texts that are not of this shape, among them
    every text with white space before the operator. *)
Theorem parse_comparison_accepts :
  forall text : string,
    (forall op digits,
       comparison_shape text op digits ->
       parse_comparison text
       = if String.length digits <=? 4300
         then Ok (Some (op, int_of digits)) else Raise ValueError)
    /\ (forall op value,
          parse_comparison text = Ok (Some (op, value)) ->
          exists digits,
            comparison_shape text op digits /\ value = int_of digits
            /\ String.length digits <= 4300)
    /\ (forall e,
          parse_comparison text = Raise e ->
          e = ValueError
          /\ exists op digits,
               comparison_shape text op digits
               /\ 4300 < String.length digits)
    /\ (parse_comparison text = Ok None <->
        forall op digits, ~ comparison_shape text op digits)
    /\ (forall lead op digits,
          lead <> EmptyString -> all_chars is_space lead = true ->
          parse_comparison (lead ++ String op digits) = Ok None)
    /\ int_of "" = 0%Z
    /\ (forall ds c,
          int_of (ds ++ String c "")
          = (10 * int_of ds + Z.of_nat (nat_of_ascii c - nat_of_ascii "0"))%Z).
Proof.
  intros text. split; [|split; [|split; [|split; [|split; [|split]]]]].
  - intros op digits H. apply re_match_comparison_shape in H.
    unfold parse_comparison, int_py. rewrite H.
    change int_max_str_digits with 4300.
    now destruct (String.length digits <=? 4300).
  - intros op value. unfold parse_comparison, int_py.
    destruct (re_match_comparison text) as [[op' ds]|] eqn:E; [|discriminate].
    destruct (String.length ds <=? int_max_str_digits) eqn:El; [|discriminate].
    intros [= <- <-]. exists ds. split; [|split; [reflexivity|]].
    + now apply re_match_comparison_shape.
    + now apply Nat.leb_le in El.
  - intros e He. apply parse_comparison_raises in He.
    destruct He as [-> [op [ds [Hm Hl]]]]. split; [reflexivity|].
    exists op, ds. split; [now apply re_match_comparison_shape | exact Hl].
  - unfold parse_comparison.
    destruct (re_match_comparison text) as [[op' ds]|] eqn:E.
    + split.
      * destruct (int_py ds); discriminate.
      * intros H. exfalso.
        apply (H op' ds). now apply re_match_comparison_shape.
    + split; [|reflexivity]. intros _ op digits H.
      apply re_match_comparison_shape in H. congruence.
  - intros lead op digits Hne Hsp. unfold parse_comparison.
    now rewrite leading_space_is_no_comparison.
  - reflexivity.
  - exact int_of_snoc.
Qed.

Lemma parse_comparison_accepts_witness :
  parse_comparison "> 10000 followers" = Ok (Some (">"%char, int_of "10000"))
  /\ (int_of "10000" = 10000%Z
      /\ parse_comparison "<5" = Ok (Some ("<"%char, 5%Z))
      /\ parse_comparison "=  007 or so" = Ok (Some ("="%char, 7%Z))
      /\ parse_comparison ">= 5" = Ok None)
  /\ parse_comparison Samples.long_comparison = Raise ValueError.
Proof.
  split; [|split; [repeat split|]].
  - refine (proj1 (parse_comparison_accepts "> 10000 followers")
              ">"%char "10000" _).
    exists " ", " followers". repeat split. discriminate.
  - refine (proj1 (parse_comparison_accepts Samples.long_comparison)
              ">"%char (repeat_char "1" 4301) _).
    exists "", "". split; [vm_compute; reflexivity|].
    repeat split; try (vm_compute; reflexivity). discriminate.
Defined.

(** C5 as the specification words it: a text with white space before the
    operator has the shape of section 4.3, yet it is not accepted; and a
    comparison of 4301 digits has that shape, yet [int] raises on it. *)
Lemma parse_comparison_rejects_leading_space :
  spec_shape " >10000" ">" "10000" /\ parse_comparison " >10000" = Ok None
  /\ spec_shape Samples.long_comparison ">" (repeat_char "1" 4301)
  /\ parse_comparison Samples.long_comparison = Raise ValueError.
Proof.
  split; [|split; [reflexivity | split; [|vm_compute; reflexivity]]].
  - exists " ", ">10000". split; [reflexivity|]. split; [reflexivity|].
    exists "", "". repeat split. discriminate.
  - exists "", Samples.long_comparison.
    split; [reflexivity|]. split; [reflexivity|].
    exists "", "". split; [vm_compute; reflexivity|].
    repeat split; try (vm_compute; reflexivity). discriminate.
Qed.

End ComparisonFacts.

Section PipelineFacts.

Lemma filter_frame_unfiltered (df : frame) (cat : string) (ff : option string) :
  match ff with
  | Some text => truthy text = false \/ parse_comparison text = Ok None
  | None => True
  end ->
  filter_frame df (Some cat) ff = Ok (filter (category_is (lower cat)) df).
Proof.
  unfold filter_frame. destruct ff as [text|]; [|reflexivity].
  intros [-> | ->]; [reflexivity|]. now destruct (truthy text).
Qed.

Lemma normalize_without_comparison (ff : string) :
  ff = "" \/ ff = "show all" \/ parse_comparison ff = Ok None ->
  match normalize_follower_filter ff with
  | Some text => truthy text = false \/ parse_comparison text = Ok None
  | None => True
  end.
Proof.
  intros [-> | [-> | H]]; [exact I | exact I |].
  unfold normalize_follower_filter.
  destruct (negb (truthy ff) || String.eqb (lower (strip ff)) "show all");
    [exact I | now right].
Qed.

(** C7: when the follower-filter text of the main script is empty, is
    [show all], or is any text in which [re.match] does not find the
    comparison, no row is removed for its follower count: the call returns
    (it does not raise), and the rows of every result are the rows of the
    category. *)
Theorem no_numeric_filter_keeps_category_rows :
  forall (df : frame) (cat ff : string) (we wf wl : Q),
    ff = "" \/ ff = "show all" \/ parse_comparison ff = Ok None ->
    filter_frame df (Some cat) (normalize_follower_filter ff)
    = Ok (filter (category_is (lower cat)) df)
    /\ (exists ranked, run_ranking df (Some cat) ff we wf wl (Ok ranked))
    /\ (forall out,
          run_ranking df (Some cat) ff we wf wl out ->
          exists ranked,
            out = Ok ranked
            /\ Permutation (filter (category_is (lower cat)) df)
                 (map src ranked)).
Proof.
  intros df cat ff we wf wl Hff.
  pose proof (filter_frame_unfiltered df cat _
                (normalize_without_comparison ff Hff)) as Hf.
  split; [exact Hf | split].
  - eexists. eapply rank_returns.
    + unfold score_frame. rewrite Hf. reflexivity.
    + apply stable_sort_desc_sorts.
  - unfold run_ranking. intros out H.
    destruct out as [ranked | e].
    + exists ranked. split; [reflexivity|].
      apply rank_creators_ok_inv in H. destruct H as [df' [Hf' [Hp _]]].
      rewrite Hf in Hf'. injection Hf' as <-.
      eapply ranked_sources. exact Hp.
    + exfalso. inversion H as [e' He|]; subst.
      unfold score_frame in He. rewrite Hf in He. discriminate.
Qed.

Lemma no_numeric_filter_keeps_category_rows_witness :
  filter_frame Scenario.records (Some "Fashion")
    (normalize_follower_filter " Show All ")
  = Ok [Scenario.A; Scenario.B]
  /\ filter_frame Scenario.records (Some "fashion")
       (normalize_follower_filter "followers >15000")
     = Ok [Scenario.A; Scenario.B].
Proof.
  split.
  - reflexivity.
  - apply (no_numeric_filter_keeps_category_rows Scenario.records "fashion"
             "followers >15000" 0.5%Q 0.3%Q 0.2%Q).
    right. right. reflexivity.
Defined.

Lemma lower_empty (c : string) : lower c = "" -> c = "".
Proof. destruct c; [reflexivity | discriminate]. Qed.

Lemma filter_none_matching (df : frame) (p : row -> bool) :
  (forall r, In r df -> p r = false) -> filter p df = [].
Proof.
  induction df as [|r df IH]; intros H; simpl; [reflexivity|].
  rewrite (H r (or_introl eq_refl)). apply IH.
  intros r' Hr'. apply H. now right.
Qed.

Lemma follower_filter_raises_iff (ff : option string) (e : exn) :
  follower_filter_raises ff = Some e <->
  e = ValueError
  /\ exists text op digits,
       ff = Some text /\ comparison_shape text op digits
       /\ 4300 < String.length digits.
Proof.
  unfold follower_filter_raises. split.
  - destruct ff as [text|]; [|discriminate].
    destruct (truthy text); [|discriminate].
    destruct (parse_comparison text) as [v|e'] eqn:E; [discriminate|].
    intros [= <-]. apply parse_comparison_raises in E.
    destruct E as [-> [op [ds [Hm Hl]]]]. split; [reflexivity|].
    exists text, op, ds. split; [reflexivity|].
    split; [now apply re_match_comparison_shape | exact Hl].
  - intros [-> [text [op [ds [-> [Hs Hl]]]]]].
    assert (Ht : truthy text = true).
    { destruct Hs as [ws [rest [-> _]]]. reflexivity. }
    apply re_match_comparison_shape in Hs.
    assert (E : parse_comparison text = Raise ValueError).
    { apply parse_comparison_raises. split; [reflexivity|]. now exists op, ds. }
    now rewrite Ht, E.
Qed.

(** C8 (amended): called with the category unset ([None]),
    [rank_creators] raises [AttributeError], whatever the follower filter;
    called with the empty string on a table in which no row has the empty
    string as its category, it returns the empty table and raises nothing,
    unless the follower filter is a comparison of more than 4300 digits, on
    which it raises the [ValueError] of [int]. *)
Theorem rank_creators_without_category :
  forall (df : frame) (ff : option string) (we wf wl : Q),
    (forall out,
       rank_creators df None ff we wf wl out <-> out = Raise AttributeError)
    /\ ((forall r, In r df -> category r <> Some "") ->
        forall out,
          rank_creators df (Some "") ff we wf wl out <->
          out = match follower_filter_raises ff with
                | Some e => Raise e
                | None => Ok []
                end)
    /\ (forall e,
          follower_filter_raises ff = Some e <->
          e = ValueError
          /\ exists text op digits,
               ff = Some text /\ comparison_shape text op digits
               /\ 4300 < String.length digits).
Proof.
  intros df ff we wf wl. split; [|split].
  - intros out. split.
    + intros H. inversion H as [e He | l r Hl _]; subst.
      * now injection He as <-.
      * discriminate Hl.
    + intros ->. now apply rank_raises.
  - intros Hne out.
    assert (Hcat : filter (category_is (lower "")) df = []).
    { apply filter_none_matching. intros r Hr. unfold category_is.
      specialize (Hne r Hr). destruct (category r) as [c|]; [|reflexivity].
      destruct (String.eqb_spec (lower c) (lower "")) as [E|]; [|reflexivity].
      apply lower_empty in E. subst c. congruence. }
    destruct (follower_filter_raises ff) as [e|] eqn:Hr.
    + pose proof (filter_frame_raises df "" ff e Hr) as Hf.
      assert (Hs : score_frame df (Some "") ff we wf wl = Raise e).
      { unfold score_frame. now rewrite Hf. }
      split.
      * intros H. inversion H as [e' He | l r Hl _]; subst.
        -- rewrite Hs in He. now injection He as <-.
        -- rewrite Hs in Hl. discriminate.
      * intros ->. now apply rank_raises.
    + destruct (filter_frame_some df "" ff Hr) as [df' [Hf Hincl]].
      rewrite Hcat in Hincl. apply incl_l_nil in Hincl. subst df'.
      assert (Hs : score_frame df (Some "") ff we wf wl = Ok []).
      { unfold score_frame. now rewrite Hf. }
      split.
      * intros H. inversion H as [e He | l r Hl [Hp _]]; subst.
        -- rewrite Hs in He. discriminate.
        -- rewrite Hs in Hl. injection Hl as <-.
           apply Permutation_nil in Hp. now subst.
      * intros ->. eapply rank_returns; [exact Hs|]. split; constructor.
  - intros e. apply follower_filter_raises_iff.
Qed.

Lemma rank_creators_without_category_witness :
  rank_creators Scenario.records (Some "") (Some ">5000") 0.5%Q 0.3%Q 0.2%Q
    (Ok [])
  /\ rank_creators Scenario.records (Some "") (Some Samples.long_comparison)
       0.5%Q 0.3%Q 0.2%Q (Raise ValueError).
Proof.
  split.
  - apply (proj1 (proj2 (rank_creators_without_category Scenario.records
                           (Some ">5000") 0.5%Q 0.3%Q 0.2%Q)));
      [|reflexivity].
    intros r [<- | [<- | []]]; discriminate.
  - apply (proj1 (proj2 (rank_creators_without_category Scenario.records
                           (Some Samples.long_comparison)
                           0.5%Q 0.3%Q 0.2%Q)));
      [|vm_compute; reflexivity].
    intros r [<- | [<- | []]]; discriminate.
Defined.

(** C8 as the specification words it: with the category unset, or empty,
    the call would give the empty table and never raise.  Unset, it raises
    [AttributeError]; empty, it returns the rows whose category is the
    empty text, and raises [ValueError] on a comparison of 4301 digits. *)
Lemma rank_creators_unset_category_raises :
  rank_creators Scenario.records None None 0.5%Q 0.3%Q 0.2%Q
    (Raise AttributeError)
  /\ ~ rank_creators Scenario.records None None 0.5%Q 0.3%Q 0.2%Q (Ok [])
  /\ rank_creators [Scenario.uncategorised] (Some "") None 0.5%Q 0.3%Q 0.2%Q
       (Ok [score_row (Some 300%Z) 0.5%Q 0.3%Q 0.2%Q Scenario.uncategorised])
  /\ rank_creators Scenario.records (Some "") (Some Samples.long_comparison)
       0.5%Q 0.3%Q 0.2%Q (Raise ValueError)
  /\ ~ rank_creators Scenario.records (Some "") (Some Samples.long_comparison)
         0.5%Q 0.3%Q 0.2%Q (Ok []).
Proof.
  assert (Hs : score_frame Scenario.records (Some "")
                 (Some Samples.long_comparison) 0.5%Q 0.3%Q 0.2%Q
               = Raise ValueError) by (vm_compute; reflexivity).
  split; [|split; [|split; [|split]]].
  - now apply rank_raises.
  - intros H. inversion H as [|l r Hl _]. discriminate Hl.
  - eapply rank_returns; [reflexivity|].
    split; [apply Permutation_refl | repeat constructor].
  - now apply rank_raises.
  - intros H. inversion H as [|l r Hl _]. rewrite Hs in Hl. discriminate Hl.
Qed.

End PipelineFacts.

Section BlockFacts.
Import HintParser.

Lemma reverse_app (a b : string) : reverse (a ++ b) = reverse b ++ reverse a.
Proof.
  induction a as [|c a IH]; simpl.
  - now rewrite append_empty_r.
  - now rewrite IH, append_assoc.
Qed.

Lemma reverse_involutive (s : string) : reverse (reverse s) = s.
Proof.
  induction s as [|c s IH]; simpl; [reflexivity|].
  rewrite reverse_app, IH. reflexivity.
Qed.

Lemma all_chars_app (p : ascii -> bool) (a b : string) :
  all_chars p (a ++ b) = all_chars p a && all_chars p b.
Proof.
  induction a as [|c a IH]; simpl; [reflexivity|].
  now rewrite IH, andb_assoc.
Qed.

Lemma all_chars_reverse (p : ascii -> bool) (s : string) :
  all_chars p (reverse s) = all_chars p s.
Proof.
  induction s as [|c s IH]; simpl; [reflexivity|].
  rewrite all_chars_app, IH. simpl.
  rewrite andb_true_r. apply andb_comm.
Qed.

Lemma rstrip_split (s : string) :
  exists ws, s = rstrip s ++ ws /\ all_chars is_space ws = true.
Proof.
  unfold rstrip. destruct (lstrip_split (reverse s)) as [ws [Hs Hws]].
  exists (reverse ws). split; [|now rewrite all_chars_reverse].
  rewrite <- reverse_app, <- Hs. symmetry. apply reverse_involutive.
Qed.

Lemma space_is_no_brace (c : ascii) :
  is_space c = true -> Ascii.eqb c "{" = false /\ Ascii.eqb c "}" = false.
Proof.
  intros H. split.
  - destruct (Ascii.eqb_spec c "{") as [->|]; [discriminate H | reflexivity].
  - destruct (Ascii.eqb_spec c "}") as [->|]; [discriminate H | reflexivity].
Qed.

Lemma spaces_lack_close (ws : string) :
  all_chars is_space ws = true -> lacks "}" ws.
Proof.
  unfold lacks. induction ws as [|c ws IH]; simpl; [reflexivity|].
  intros H. apply andb_true_iff in H. destruct H as [Hc Hws].
  apply space_is_no_brace in Hc. destruct Hc as [_ ->]. now apply IH.
Qed.

Lemma until_close_none (s : string) : until_close s = None <-> lacks "}" s.
Proof.
  unfold lacks. induction s as [|c s IH]; simpl; [tauto|].
  destruct (Ascii.eqb c "}"); simpl.
  - split; discriminate.
  - rewrite <- IH. destruct (until_close s); split; congruence.
Qed.

Lemma until_close_app (mid post : string) :
  lacks "}" mid -> until_close (mid ++ String "}" post) = Some (mid ++ "}").
Proof.
  unfold lacks. induction mid as [|c mid IH]; simpl; [reflexivity|].
  intros H. apply andb_true_iff in H. destruct H as [Hc Hmid].
  apply negb_true_iff in Hc. rewrite Hc. now rewrite (IH Hmid).
Qed.

Lemma until_close_sound (s b : string) :
  until_close s = Some b ->
  exists mid post, s = mid ++ String "}" post /\ lacks "}" mid /\ b = mid ++ "}".
Proof.
  unfold lacks. revert b. induction s as [|c s IH]; simpl; intros b;
    [discriminate|].
  destruct (Ascii.eqb_spec c "}") as [->|Hc].
  - intros [= <-]. now exists "", s.
  - destruct (until_close s) as [b'|]; [|discriminate]. intros [= <-].
    destruct (IH b' eq_refl) as [mid [post [-> [Hmid ->]]]].
    exists (String c mid), post. simpl.
    apply Ascii.eqb_neq in Hc. rewrite Hc. now repeat split.
Qed.


Lemma until_close_app_lacks (s ws : string) :
  lacks "}" ws -> until_close (s ++ ws) = until_close s.
Proof.
  intros Hws. induction s as [|c s IH]; simpl.
  - now apply until_close_none.
  - now rewrite IH.
Qed.

Lemma search_block_lacks (s : string) : lacks "}" s -> search_block s = None.
Proof.
  unfold lacks. induction s as [|c s IH]; simpl; [reflexivity|].
  intros H. apply andb_true_iff in H. destruct H as [_ Hs].
  rewrite (IH Hs). apply until_close_none in Hs. rewrite Hs.
  now destruct (Ascii.eqb c "{").
Qed.

Lemma search_block_app_lacks (s ws : string) :
  lacks "}" ws -> search_block (s ++ ws) = search_block s.
Proof.
  intros Hws. induction s as [|c s IH]; simpl.
  - now apply search_block_lacks.
  - now rewrite IH, until_close_app_lacks.
Qed.

Lemma search_block_lstrip (s : string) : search_block (lstrip s) = search_block s.
Proof.
  induction s as [|c s IH]; simpl; [reflexivity|].
  destruct (is_space c) eqn:Hc; [|reflexivity].
  apply space_is_no_brace in Hc. destruct Hc as [-> _]. exact IH.
Qed.

Lemma search_block_strip (s : string) : search_block (strip s) = search_block s.
Proof.
  unfold strip. rewrite <- (search_block_lstrip s).
  destruct (rstrip_split (lstrip s)) as [ws [Hs Hws]].
  rewrite Hs at 2. symmetry. apply search_block_app_lacks.
  now apply spaces_lack_close.
Qed.

Lemma search_block_app (pre mid post : string) :
  lacks "{" pre -> lacks "}" mid ->
  search_block (pre ++ String "{" (mid ++ String "}" post))
  = Some (String "{" (mid ++ "}")).
Proof.
  unfold lacks at 1. intros Hpre Hmid. induction pre as [|c pre IH]; simpl.
  - now rewrite until_close_app.
  - simpl in Hpre. apply andb_true_iff in Hpre. destruct Hpre as [Hc Hpre].
    apply negb_true_iff in Hc. rewrite Hc. now apply IH.
Qed.

Lemma first_block_has_close (s b : string) : first_block s b -> ~ lacks "}" s.
Proof.
  intros [pre [mid [post [-> _]]]] H. unfold lacks in H.
  rewrite all_chars_app in H. apply andb_true_iff in H. destruct H as [_ H].
  cbn in H. rewrite all_chars_app in H.
  apply andb_true_iff in H. destruct H as [_ H]. discriminate H.
Qed.

Lemma search_block_sound (s b : string) :
  search_block s = Some b -> first_block s b.
Proof.
  revert b. induction s as [|c s IH]; simpl; intros b; [discriminate|].
  destruct (Ascii.eqb_spec c "{") as [->|Hc].
  - destruct (until_close s) as [b'|] eqn:Hu.
    + intros [= <-]. apply until_close_sound in Hu.
      destruct Hu as [mid [post [-> [Hmid ->]]]].
      exists "", mid, post. now repeat split.
    + intros H. apply IH in H. apply first_block_has_close in H.
      apply until_close_none in Hu. contradiction.
  - intros H. destruct (IH b H) as [pre [mid [post [-> [Hpre [Hmid ->]]]]]].
    exists (String c pre), mid, post. repeat split; try assumption.
    unfold lacks. simpl. apply Ascii.eqb_neq in Hc. now rewrite Hc.
Qed.

Lemma search_block_first (s b : string) :
  search_block s = Some b <-> first_block s b.
Proof.
  split; [apply search_block_sound|].
  intros [pre [mid [post [-> [Hpre [Hmid ->]]]]]].
  exact (search_block_app pre mid post Hpre Hmid).
Qed.



Lemma parse_query_llm_on_text (pyobj : Type) (api_key : option string)
    (complete_create : string -> outcome (option (list string)))
    (py_eval : string -> outcome pyobj) (query text : string)
    (others : list string) :
  key_available api_key = true ->
  complete_create (prompt query) = Ok (Some (text :: others)) ->
  parse_query_llm pyobj api_key complete_create py_eval query
  = except_Exception pyobj (parse_text pyobj py_eval text).
Proof.
  intros Hk Hc. unfold parse_query_llm. now rewrite Hk, Hc.
Qed.



End BlockFacts.

Section JsonFacts.
Import Json HintParser.

Lemma count_char_app (c : ascii) (a b : string) :
  count_char c (a ++ b) = count_char c a + count_char c b.
Proof.
  induction a as [|x a IH]; simpl; [reflexivity|]. rewrite IH. lia.
Qed.

Lemma str_length_app (a b : string) :
  String.length (a ++ b) = String.length a + String.length b.
Proof. induction a as [|x a IH]; simpl; [reflexivity | now rewrite IH]. Qed.

Lemma suffix_cons (c : ascii) (t rest : string) :
  (exists pre, t = pre ++ rest) -> exists pre, String c t = pre ++ rest.
Proof. intros [pre ->]. now exists (String c pre). Qed.

Lemma suffix_trans (s t rest : string) :
  (exists pre, s = pre ++ t) -> (exists pre, t = pre ++ rest) ->
  exists pre, s = pre ++ rest.
Proof.
  intros [p1 ->] [p2 ->]. exists (p1 ++ p2). now rewrite append_assoc.
Qed.

Lemma suffix_refl (s : string) : exists pre, s = pre ++ s.
Proof. now exists "". Qed.

Lemma scanstring_suffix (s : string) :
  forall m acc str rest,
    scanstring m acc s = Some (str, rest) -> exists pre, s = pre ++ rest.
Proof.
  induction s as [|c t IH]; intros m acc str rest; simpl; [discriminate|].
  destruct m as [| |more code].
  - destruct (Ascii.eqb c dq).
    + intros [= _ <-]. now exists (String c "").
    + destruct (Ascii.eqb c backslash); [intros H; eapply suffix_cons, IH, H|].
      destruct (nat_of_ascii c <? 32); [discriminate|].
      intros H. eapply suffix_cons, IH, H.
  - destruct (Ascii.eqb c "u"); [intros H; eapply suffix_cons, IH, H|].
    destruct (simple_escape c); [|discriminate].
    intros H. eapply suffix_cons, IH, H.
  - destruct (hex_value c); [|discriminate].
    destruct more; intros H; eapply suffix_cons, IH, H.
Qed.

Lemma span_digits_suffix (s ds rest : string) :
  span_digits s = (ds, rest) -> exists pre, s = pre ++ rest.
Proof. intros H. apply span_digits_split in H. exists ds. tauto. Qed.

Lemma scan_frac_suffix (s f rest : string) :
  scan_frac s = (f, rest) -> exists pre, s = pre ++ rest.
Proof.
  unfold scan_frac. destruct s as [|c t]; [intros [= _ <-]; apply suffix_refl|].
  destruct (Ascii.eqb c "."); [|intros [= _ <-]; apply suffix_refl].
  destruct (span_digits t) as [ds r] eqn:E.
  destruct ds; intros [= _ <-]; [apply suffix_refl|].
  eapply suffix_cons, span_digits_suffix, E.
Qed.

Lemma scan_exp_digits_suffix (e : ascii) (sign t s x rest : string) :
  (exists pre, s = pre ++ t) ->
  scan_exp_digits e sign t s = (x, rest) -> exists pre, s = pre ++ rest.
Proof.
  intros Ht. unfold scan_exp_digits. destruct (span_digits t) as [ds r] eqn:E.
  destruct ds; intros [= _ <-]; [apply suffix_refl|].
  eapply suffix_trans; [exact Ht|]. eapply span_digits_suffix, E.
Qed.

Lemma scan_exp_suffix (s x rest : string) :
  scan_exp s = (x, rest) -> exists pre, s = pre ++ rest.
Proof.
  unfold scan_exp. destruct s as [|e t]; [intros [= _ <-]; apply suffix_refl|].
  destruct (Ascii.eqb e "e" || Ascii.eqb e "E");
    [|intros [= _ <-]; apply suffix_refl].
  destruct t as [|g u].
  - apply scan_exp_digits_suffix. now exists (String e "").
  - destruct (Ascii.eqb g "+" || Ascii.eqb g "-");
      apply scan_exp_digits_suffix.
    + now exists (String e (String g "")).
    + now exists (String e "").
Qed.

Lemma scan_unsigned_suffix (sign s i rest : string) :
  scan_unsigned sign s = Some (i, rest) ->
  exists c pre, s = String c (pre ++ rest).
Proof.
  unfold scan_unsigned. destruct s as [|d t]; [discriminate|].
  destruct (Ascii.eqb d "0"); [intros [= _ <-]; now exists d, ""|].
  destruct (is_digit d) eqn:Hd; [|discriminate].
  destruct (span_digits (String d t)) as [ds r] eqn:E. intros [= _ <-].
  simpl in E. rewrite Hd in E. destruct (span_digits t) as [ds' r'] eqn:E'.
  injection E as _ <-. apply span_digits_split in E'.
  destruct E' as [-> _]. now exists d, ds'.
Qed.

Lemma scan_int_suffix (s i rest : string) :
  scan_int s = Some (i, rest) -> exists c pre, s = String c (pre ++ rest).
Proof.
  unfold scan_int. destruct s as [|c t]; [discriminate|].
  destruct (Ascii.eqb c "-"); [|apply scan_unsigned_suffix].
  intros H. apply scan_unsigned_suffix in H. destruct H as [d [pre ->]].
  now exists c, (String d pre).
Qed.

Lemma scan_number_suffix (s : string) (v : value) (rest : string) :
  scan_number s = Some (v, rest) -> exists c pre, s = String c (pre ++ rest).
Proof.
  unfold scan_number. destruct (scan_int s) as [[i r]|] eqn:Ei; [|discriminate].
  destruct (scan_frac r) as [f r1] eqn:Ef.
  destruct (scan_exp r1) as [x r2] eqn:Ex.
  intros H. assert (rest = r2) as ->.
  { destruct f, x; try (now injection H).
    destruct (digit_count i <=? int_max_str_digits);
      [now injection H | discriminate]. }
  apply scan_int_suffix in Ei. destruct Ei as [c [pre ->]].
  apply scan_frac_suffix in Ef. apply scan_exp_suffix in Ex.
  destruct (suffix_trans _ _ _ Ef Ex) as [p ->].
  exists c, (pre ++ p). now rewrite append_assoc.
Qed.

Lemma startswith_drop (p s : string) :
  startswith p s = true -> p <> "" ->
  exists c pre, s = String c (pre ++ drop (String.length p) s).
Proof.
  intros H Hp. apply startswith_spec in H. destruct H as [r ->].
  destruct p as [|c p]; [congruence|]. exists c, p. simpl. f_equal. f_equal.
  clear. induction p as [|x p IH]; simpl; [now destruct r | exact IH].
Qed.

Lemma scan_word_suffix (s : string) (v : value) (rest : string) :
  scan_word s = Some (v, rest) -> exists c pre, s = String c (pre ++ rest).
Proof.
  unfold scan_word.
  repeat match goal with
         | |- context [if startswith ?p s then _ else _] =>
             destruct (startswith p s) eqn:?;
             [intros [= _ <-];
              apply (startswith_drop p s); [assumption | discriminate]|]
         | |- context [match scan_number s with _ => _ end] =>
             destruct (scan_number s) as [[v' r']|] eqn:?;
             [intros [= _ <-]; eapply scan_number_suffix; eassumption|]
         end.
  discriminate.
Qed.

Lemma cons_token_tokens (t : token) (r : lexed) (ts : list token) :
  cons_token t r = Tokens ts -> exists ts', r = Tokens ts' /\ ts = t :: ts'.
Proof. destruct r; simpl; try discriminate. intros [= <-]. now eexists. Qed.

Lemma cons_token_fuel (t : token) (r : lexed) :
  cons_token t r = OutOfFuel -> r = OutOfFuel.
Proof. destruct r; simpl; congruence. Qed.

(** The lexer never runs out of steps. *)
Lemma lex_has_fuel (fuel : nat) :
  forall s, String.length s < fuel -> lex fuel s <> OutOfFuel.
Proof.
  induction fuel as [|fuel IH]; intros s Hlen; [lia|].
  destruct s as [|c t]; simpl; [discriminate|]. simpl in Hlen.
  assert (Ht : lex fuel t <> OutOfFuel) by (apply IH; lia).
  assert (Hrest : forall rest, (exists pre, t = pre ++ rest) ->
                               lex fuel rest <> OutOfFuel).
  { intros rest [pre ->]. apply IH. rewrite str_length_app in Hlen. lia. }
  assert (Hcons : forall tk rest, (exists pre, t = pre ++ rest) ->
                                  cons_token tk (lex fuel rest) <> OutOfFuel).
  { intros tk rest Hr H. apply cons_token_fuel in H. now apply (Hrest rest). }
  destruct (json_ws c); [exact Ht|].
  destruct (Ascii.eqb c "{"); [apply Hcons, suffix_refl|].
  destruct (Ascii.eqb c "}"); [apply Hcons, suffix_refl|].
  destruct (Ascii.eqb c "["); [apply Hcons, suffix_refl|].
  destruct (Ascii.eqb c "]"); [apply Hcons, suffix_refl|].
  destruct (Ascii.eqb c ":"); [apply Hcons, suffix_refl|].
  destruct (Ascii.eqb c ","); [apply Hcons, suffix_refl|].
  destruct (Ascii.eqb c dq).
  - destruct (scanstring SPlain [] t) as [[str rest]|] eqn:E; [|discriminate].
    apply Hcons. eapply scanstring_suffix, E.
  - destruct (scan_word (String c t)) as [[v rest]|] eqn:E; [|discriminate].
    apply scan_word_suffix in E. destruct E as [c' [pre E]].
    injection E as _ ->. apply Hcons. now exists pre.
Qed.

Lemma tokenize_total (s : string) : tokenize s <> OutOfFuel.
Proof. unfold tokenize. apply lex_has_fuel. lia. Qed.

(** Every closing-brace token is a closing brace of the text. *)
Lemma lex_close_count (fuel : nat) :
  forall s ts,
    lex fuel s = Tokens ts ->
    List.length (filter is_close_brace ts) <= count_char "}" s.
Proof.
  induction fuel as [|fuel IH]; intros s ts; simpl; [discriminate|].
  destruct s as [|c t]; [intros [= <-]; simpl; lia|].
  assert (Hrest : forall tk rest,
            is_close_brace tk = false ->
            (exists pre, t = pre ++ rest) ->
            cons_token tk (lex fuel rest) = Tokens ts ->
            List.length (filter is_close_brace ts) <= count_char "}" (String c t)).
  { intros tk rest Htk [pre ->] H. apply cons_token_tokens in H.
    destruct H as [ts' [H ->]]. apply IH in H. simpl. rewrite Htk.
    rewrite count_char_app. lia. }
  destruct (json_ws c); [intros H; apply IH in H; simpl; lia|].
  destruct (Ascii.eqb c "{");
    [apply (Hrest TLBrace t eq_refl (suffix_refl t))|].
  destruct (Ascii.eqb c "}") eqn:Hc.
  { intros H. apply cons_token_tokens in H. destruct H as [ts' [H ->]].
    apply IH in H. simpl. rewrite Hc. lia. }
  destruct (Ascii.eqb c "[");
    [apply (Hrest TLBrack t eq_refl (suffix_refl t))|].
  destruct (Ascii.eqb c "]");
    [apply (Hrest TRBrack t eq_refl (suffix_refl t))|].
  destruct (Ascii.eqb c ":");
    [apply (Hrest TColon t eq_refl (suffix_refl t))|].
  destruct (Ascii.eqb c ",");
    [apply (Hrest TComma t eq_refl (suffix_refl t))|].
  destruct (Ascii.eqb c dq).
  - destruct (scanstring SPlain [] t) as [[str rest]|] eqn:E; [|discriminate].
    apply Hrest; [reflexivity|]. eapply scanstring_suffix, E.
  - destruct (scan_word (String c t)) as [[v rest]|] eqn:E; [|discriminate].
    apply scan_word_suffix in E. destruct E as [c' [pre E]].
    injection E as _ ->. apply Hrest; [reflexivity | now exists pre].
Qed.

Lemma deliver_objects (v : value) (stack : list container) :
  open_objects (fst (deliver v stack)) = open_objects stack.
Proof. destruct stack as [|[m k|items] rest]; reflexivity. Qed.

Lemma step_balance (stack stack' : list container) (e e' : expect) (t : token) :
  step (stack, e) t = Some (stack', e') ->
  open_objects stack' + (if is_close_brace t then 1 else 0)
  = open_objects stack + (if is_open_brace t then 1 else 0).
Proof.
  assert (Hd : forall v st, Some (deliver v st) = Some (stack', e') ->
                            open_objects stack' = open_objects st).
  { intros v st [= H]. rewrite <- (deliver_objects v st). now rewrite H. }
  assert (Hstart : forall tk, start_value tk stack = Some (stack', e') ->
            open_objects stack' + (if is_close_brace tk then 1 else 0)
            = open_objects stack + (if is_open_brace tk then 1 else 0)).
  { intros tk. destruct tk; simpl; try discriminate.
    - intros [= <- _]. simpl. lia.
    - intros [= <- _]. simpl. lia.
    - intros H. apply Hd in H. lia. }
  assert (Hobj : close_object stack = Some (stack', e') ->
                 open_objects stack' + 1 = open_objects stack + 0).
  { unfold close_object. destruct stack as [|[m k|items] rest];
      try discriminate. intros H. apply Hd in H. simpl. lia. }
  assert (Harr : close_array stack = Some (stack', e') ->
                 open_objects stack' + 0 = open_objects stack + 0).
  { unfold close_array. destruct stack as [|[m k|items] rest];
      try discriminate. intros H. apply Hd in H. simpl. lia. }
  assert (Hkey : forall k, set_key k stack = Some (stack', e') ->
                 open_objects stack' + 0 = open_objects stack + 0).
  { intros k. unfold set_key. destruct stack as [|[m k'|items] rest];
      try discriminate. intros [= <- _]. simpl. lia. }
  unfold step. destruct e as [| | | | | |done]; destruct t as [| | | | | |v];
    try discriminate; simpl; auto;
    try (apply (Hstart TLBrace)); try (apply (Hstart TLBrack));
    try (apply (Hstart (TScalar v)));
    try (destruct v; try discriminate; apply Hkey).
  - intros [= <- _]. lia.
  - destruct stack as [|[m k|items] rest]; try discriminate;
      intros [= <- _]; lia.
Qed.

Lemma run_balanced (ts : list token) :
  forall st v,
    run st ts = Some v ->
    List.length (filter is_open_brace ts) + open_objects (fst st)
    = List.length (filter is_close_brace ts).
Proof.
  induction ts as [|t ts IH]; intros [stack e] v H; cbn [run] in H.
  - destruct stack; [|discriminate]. destruct e; try discriminate. reflexivity.
  - destruct (step (stack, e) t) as [[stack' e']|] eqn:E; [|discriminate].
    apply IH in H. cbn [fst] in *. apply step_balance in E.
    destruct t; cbn [filter is_open_brace is_close_brace List.length] in *; lia.
Qed.

Lemma consumed_refl (s : string) : consumes_plain s s.
Proof. now exists "". Qed.

Lemma consumed_cons (c : ascii) (t rest : string) :
  plain_char c = true -> consumes_plain t rest ->
  consumes_plain (String c t) rest.
Proof.
  intros Hc [pre [-> Hp]]. exists (String c pre). simpl. now rewrite Hc, Hp.
Qed.

Lemma consumed_trans (s t rest : string) :
  consumes_plain s t -> consumes_plain t rest -> consumes_plain s rest.
Proof.
  intros [p1 [-> H1]] [p2 [-> H2]]. exists (p1 ++ p2).
  rewrite append_assoc, all_chars_app, H1, H2. now split.
Qed.

Lemma digit_plain (c : ascii) : is_digit c = true -> plain_char c = true.
Proof.
  destruct c as [[] [] [] [] [] [] [] []]; vm_compute; congruence.
Qed.

Lemma json_ws_plain (c : ascii) : json_ws c = true -> plain_char c = true.
Proof.
  destruct c as [[] [] [] [] [] [] [] []]; vm_compute; congruence.
Qed.

Lemma hex_plain (c : ascii) (d : N) :
  hex_value c = Some d ->
  Ascii.eqb c backslash = false /\ Ascii.eqb c dq = false.
Proof.
  destruct c as [[] [] [] [] [] [] [] []]; vm_compute; intros H;
    (discriminate H || now split).
Qed.

Lemma all_chars_impl (p r : ascii -> bool) (s : string) :
  (forall c, p c = true -> r c = true) ->
  all_chars p s = true -> all_chars r s = true.
Proof.
  intros Hpr. induction s as [|c s IH]; simpl; [reflexivity|].
  intros H. apply andb_true_iff in H. destruct H as [Hc Hs].
  now rewrite (Hpr c Hc), IH.
Qed.

Lemma span_digits_consumed (s ds rest : string) :
  span_digits s = (ds, rest) -> consumes_plain s rest.
Proof.
  intros H. apply span_digits_split in H. destruct H as [-> [Hd _]].
  exists ds. split; [reflexivity|].
  exact (all_chars_impl _ _ _ digit_plain Hd).
Qed.

Lemma scan_frac_consumed (s f rest : string) :
  scan_frac s = (f, rest) -> consumes_plain s rest.
Proof.
  unfold scan_frac. destruct s as [|c t]; [intros [= _ <-]; apply consumed_refl|].
  destruct (Ascii.eqb_spec c ".") as [->|_];
    [|intros [= _ <-]; apply consumed_refl].
  destruct (span_digits t) as [ds r] eqn:E.
  destruct ds; intros [= _ <-]; [apply consumed_refl|].
  apply consumed_cons; [reflexivity|]. eapply span_digits_consumed, E.
Qed.

Lemma scan_exp_digits_consumed (e : ascii) (sign t s x rest : string) :
  consumes_plain s t ->
  scan_exp_digits e sign t s = (x, rest) -> consumes_plain s rest.
Proof.
  intros Ht. unfold scan_exp_digits. destruct (span_digits t) as [ds r] eqn:E.
  destruct ds; intros [= _ <-]; [apply consumed_refl|].
  eapply consumed_trans; [exact Ht|]. eapply span_digits_consumed, E.
Qed.

Lemma scan_exp_consumed (s x rest : string) :
  scan_exp s = (x, rest) -> consumes_plain s rest.
Proof.
  unfold scan_exp. destruct s as [|e t]; [intros [= _ <-]; apply consumed_refl|].
  destruct (Ascii.eqb e "e" || Ascii.eqb e "E") eqn:He;
    [|intros [= _ <-]; apply consumed_refl].
  assert (Hpe : plain_char e = true).
  { apply orb_true_iff in He.
    destruct He as [He|He]; apply Ascii.eqb_eq in He; now subst. }
  destruct t as [|g u].
  - apply scan_exp_digits_consumed.
    apply consumed_cons; [exact Hpe | apply consumed_refl].
  - destruct (Ascii.eqb g "+" || Ascii.eqb g "-") eqn:Hg;
      apply scan_exp_digits_consumed.
    + assert (Hpg : plain_char g = true).
      { apply orb_true_iff in Hg.
        destruct Hg as [Hg|Hg]; apply Ascii.eqb_eq in Hg; now subst. }
      apply consumed_cons; [exact Hpe|].
      apply consumed_cons; [exact Hpg | apply consumed_refl].
    + apply consumed_cons; [exact Hpe | apply consumed_refl].
Qed.

Lemma scan_unsigned_consumed (sign s i rest : string) :
  scan_unsigned sign s = Some (i, rest) -> consumes_plain s rest.
Proof.
  unfold scan_unsigned. destruct s as [|d t]; [discriminate|].
  destruct (Ascii.eqb_spec d "0") as [->|_].
  { intros [= _ <-]. apply consumed_cons; [reflexivity | apply consumed_refl]. }
  destruct (is_digit d) eqn:Hd; [|discriminate].
  destruct (span_digits (String d t)) as [ds r] eqn:E. intros [= _ <-].
  eapply span_digits_consumed, E.
Qed.

Lemma scan_int_consumed (s i rest : string) :
  scan_int s = Some (i, rest) -> consumes_plain s rest.
Proof.
  unfold scan_int. destruct s as [|c t]; [discriminate|].
  destruct (Ascii.eqb_spec c "-") as [->|_]; [|apply scan_unsigned_consumed].
  intros H. apply scan_unsigned_consumed in H.
  now apply consumed_cons.
Qed.

Lemma scan_number_consumed (s : string) (v : value) (rest : string) :
  scan_number s = Some (v, rest) -> consumes_plain s rest.
Proof.
  unfold scan_number. destruct (scan_int s) as [[i r]|] eqn:Ei; [|discriminate].
  destruct (scan_frac r) as [f r1] eqn:Ef.
  destruct (scan_exp r1) as [x r2] eqn:Ex.
  intros H. assert (rest = r2) as ->.
  { destruct f, x; try (now injection H).
    destruct (digit_count i <=? int_max_str_digits);
      [now injection H | discriminate]. }
  apply scan_int_consumed in Ei. apply scan_frac_consumed in Ef.
  apply scan_exp_consumed in Ex.
  exact (consumed_trans _ _ _ Ei (consumed_trans _ _ _ Ef Ex)).
Qed.

Lemma drop_app (p r : string) : drop (String.length p) (p ++ r) = r.
Proof. induction p as [|x p IH]; simpl; [now destruct r | exact IH]. Qed.

Lemma startswith_consumed (p s : string) :
  startswith p s = true -> all_chars plain_char p = true ->
  consumes_plain s (drop (String.length p) s).
Proof.
  intros H Hp. apply startswith_spec in H. destruct H as [r ->].
  rewrite drop_app. now exists p.
Qed.

Lemma scan_word_consumed (s : string) (v : value) (rest : string) :
  scan_word s = Some (v, rest) -> consumes_plain s rest.
Proof.
  unfold scan_word.
  repeat match goal with
         | |- context [if startswith ?p s then _ else _] =>
             destruct (startswith p s) eqn:?;
             [intros [= _ <-];
              apply (startswith_consumed p s); [assumption | reflexivity]|]
         | |- context [match scan_number s with _ => _ end] =>
             destruct (scan_number s) as [[v' r']|] eqn:?;
             [intros [= _ <-]; eapply scan_number_consumed; eassumption|]
         end.
  discriminate.
Qed.

Lemma braces_outside_plain (pre rest : string) :
  all_chars plain_char pre = true ->
  braces_outside Outside (pre ++ rest) = braces_outside Outside rest.
Proof.
  induction pre as [|c pre IH]; [reflexivity|].
  cbn [append braces_outside all_chars].
  intros H. apply andb_true_iff in H. destruct H as [Hc Hp].
  unfold plain_char in Hc. apply andb_true_iff in Hc.
  destruct Hc as [Hq Hb]. apply negb_true_iff in Hq, Hb.
  rewrite Hq, Hb. now apply IH.
Qed.

Lemma braces_outside_consumed (s rest : string) :
  consumes_plain s rest ->
  braces_outside Outside s = braces_outside Outside rest.
Proof. intros [pre [-> H]]. now apply braces_outside_plain. Qed.

(** A string literal that [scanstring] reads to its end leaves the scan of
    the braces outside the literals. *)
Lemma scanstring_quoting (s : string) :
  forall m acc str rest,
    scanstring m acc s = Some (str, rest) ->
    braces_outside (quoting_of m) s = braces_outside Outside rest.
Proof.
  induction s as [|c t IH]; intros m acc str rest; [discriminate|].
  cbn [scanstring]. destruct m as [| |more code]; cbn [quoting_of braces_outside].
  - destruct (Ascii.eqb_spec c dq) as [->|_].
    + intros [= _ <-]. reflexivity.
    + destruct (Ascii.eqb c backslash); [intros H; exact (IH _ _ _ _ H)|].
      destruct (nat_of_ascii c <? 32); [discriminate|].
      intros H. exact (IH _ _ _ _ H).
  - destruct (Ascii.eqb c "u"); [intros H; exact (IH _ _ _ _ H)|].
    destruct (simple_escape c); [|discriminate].
    intros H. exact (IH _ _ _ _ H).
  - destruct (hex_value c) as [d|] eqn:Hh; [|discriminate].
    destruct (hex_plain _ _ Hh) as [-> ->].
    destruct more; intros H; exact (IH _ _ _ _ H).
Qed.

(** The opening-brace tokens of a text that lexes are its opening braces
    outside the string literals. *)
Lemma lex_open_count (fuel : nat) :
  forall s ts,
    lex fuel s = Tokens ts ->
    braces_outside Outside s = List.length (filter is_open_brace ts).
Proof.
  induction fuel as [|fuel IH]; intros s ts; cbn [lex]; [discriminate|].
  destruct s as [|c t]; [intros [= <-]; reflexivity|].
  assert (Hrest : forall tk rest,
            is_open_brace tk = false ->
            braces_outside Outside (String c t) = braces_outside Outside rest ->
            cons_token tk (lex fuel rest) = Tokens ts ->
            braces_outside Outside (String c t)
            = List.length (filter is_open_brace ts)).
  { intros tk rest Htk Hb H. apply cons_token_tokens in H.
    destruct H as [ts' [H ->]]. apply IH in H. cbn [filter].
    rewrite Htk, Hb. exact H. }
  destruct (json_ws c) eqn:Hws.
  { intros H. apply IH in H. rewrite <- H.
    apply (braces_outside_plain (String c "") t). cbn.
    now rewrite (json_ws_plain _ Hws). }
  destruct (Ascii.eqb_spec c "{") as [->|_].
  { intros H. apply cons_token_tokens in H. destruct H as [ts' [H ->]].
    apply IH in H. cbn. now rewrite H. }
  destruct (Ascii.eqb_spec c "}") as [->|_];
    [apply (Hrest TRBrace t eq_refl eq_refl)|].
  destruct (Ascii.eqb_spec c "[") as [->|_];
    [apply (Hrest TLBrack t eq_refl eq_refl)|].
  destruct (Ascii.eqb_spec c "]") as [->|_];
    [apply (Hrest TRBrack t eq_refl eq_refl)|].
  destruct (Ascii.eqb_spec c ":") as [->|_];
    [apply (Hrest TColon t eq_refl eq_refl)|].
  destruct (Ascii.eqb_spec c ",") as [->|_];
    [apply (Hrest TComma t eq_refl eq_refl)|].
  destruct (Ascii.eqb_spec c dq) as [->|_].
  - destruct (scanstring SPlain [] t) as [[str rest]|] eqn:E; [|discriminate].
    apply Hrest; [reflexivity|]. apply scanstring_quoting in E. exact E.
  - destruct (scan_word (String c t)) as [[v rest]|] eqn:E; [|discriminate].
    apply Hrest; [reflexivity|].
    apply braces_outside_consumed. eapply scan_word_consumed, E.
Qed.

(** A text that [json.loads] accepts has no more opening braces outside
    its string literals than closing braces. *)
Lemma loads_braces (s : string) (v : value) :
  loads s = Some v -> braces_outside Outside s <= count_char "}" s.
Proof.
  unfold loads. destruct (tokenize s) as [ts| |] eqn:E; try discriminate.
  intros H. apply run_balanced in H. simpl in H.
  pose proof (lex_open_count _ _ _ E) as Ho.
  apply lex_close_count in E. lia.
Qed.

Lemma count_char_normalised (c : ascii) (s : string) :
  c <> sq -> c <> dq ->
  count_char c (replace_char sq dq s) = count_char c s.
Proof.
  intros Hs Hd. induction s as [|x s IH]; simpl; [reflexivity|]. rewrite IH.
  destruct (Ascii.eqb_spec x sq) as [->|_]; [|reflexivity].
  destruct (Ascii.eqb_spec dq c); [congruence|].
  destruct (Ascii.eqb_spec sq c); [congruence | reflexivity].
Qed.

Lemma lacks_count (c : ascii) (s : string) : lacks c s -> count_char c s = 0.
Proof.
  unfold lacks. induction s as [|x s IH]; simpl; [reflexivity|].
  intros H. apply andb_true_iff in H. destruct H as [Hx Hs].
  apply negb_true_iff in Hx. rewrite Hx. now apply IH.
Qed.

Lemma first_block_one_close (s block : string) :
  first_block s block -> count_char "}" block = 1.
Proof.
  intros [pre [mid [post [_ [_ [Hmid ->]]]]]]. cbn.
  rewrite count_char_app, (lacks_count _ _ Hmid). reflexivity.
Qed.

End JsonFacts.

Section NestedReplyFacts.
Import Json HintParser.

(** C10 (amended): when the first brace-delimited block of the reply has a
    second opening brace before its closing brace, the block
    [parse_query_llm] decodes stops at the first closing brace: it has one
    closing brace and more opening ones, and nothing after it is read.  If
    two of its opening braces stand outside the string literals once the
    single quotes are turned into double quotes, the strict decoding fails
    and the result is that of [eval] on the truncated block: whenever
    [eval] raises an exception, [None] with a parsing error, or what
    putting that exception into the message raises. *)
Theorem nested_reply_is_truncated :
  forall (pyobj : Type) (api_key : option string)
         (complete_create : string -> outcome (option (list string)))
         (py_eval : string -> outcome pyobj)
         (query text block : string) (others : list string),
    key_available api_key = true ->
    complete_create (prompt query) = Ok (Some (text :: others)) ->
    first_block text block ->
    2 <= count_char "{" block ->
    count_char "}" block = 1
    /\ count_char "}" block < count_char "{" block
    /\ parse_query_llm pyobj api_key complete_create py_eval query
       = except_Exception pyobj
           match decode_block pyobj py_eval block with
           | Ok p => Ok (Hint p)
           | Raise e => Raise e
           end
    /\ (2 <= braces_outside Outside (replace_char sq dq block) ->
        loads (replace_char sq dq block) = None
        /\ parse_query_llm pyobj api_key complete_create py_eval query
           = except_Exception pyobj
               match py_eval block with
               | Ok o => Ok (Hint (FromEval o))
               | Raise e => Raise e
               end
        /\ (forall e, py_eval block = Raise e -> is_Exception e = true ->
            parse_query_llm pyobj api_key complete_create py_eval query
            = match format_raises e with
              | Some raised => Raise raised
              | None => Ok (NoHint ParsingError)
              end)).
Proof.
  intros pyobj api_key complete_create py_eval query text block others
         Hk Hc Hb Hopen.
  pose proof (first_block_one_close _ _ Hb) as Hclose.
  assert (Hp : parse_query_llm pyobj api_key complete_create py_eval query
               = except_Exception pyobj
                   match decode_block pyobj py_eval block with
                   | Ok p => Ok (Hint p)
                   | Raise e => Raise e
                   end).
  { rewrite (parse_query_llm_on_text _ _ _ _ _ _ _ Hk Hc).
    unfold parse_text. rewrite search_block_strip.
    apply search_block_first in Hb. now rewrite Hb. }
  split; [exact Hclose | split; [lia | split; [exact Hp|]]].
  intros Htok.
  assert (Hl : loads (replace_char sq dq block) = None).
  { destruct (loads (replace_char sq dq block)) as [v|] eqn:E; [|reflexivity].
    apply loads_braces in E.
    rewrite count_char_normalised in E by discriminate. lia. }
  assert (Hp' : parse_query_llm pyobj api_key complete_create py_eval query
                = except_Exception pyobj
                    match py_eval block with
                    | Ok o => Ok (Hint (FromEval o))
                    | Raise e => Raise e
                    end).
  { rewrite Hp. unfold decode_block. rewrite Hl.
    now destruct (py_eval block). }
  split; [exact Hl | split; [exact Hp'|]].
  intros e He Hexc. rewrite Hp', He. simpl. now rewrite Hexc.
Qed.

Lemma nested_reply_is_truncated_witness :
  answering plain_nested_reply "top fashion creators"
  = Ok (NoHint ParsingError)
  /\ tokenize open_string_reply = LexError
  /\ loads (replace_char sq dq open_string_reply) = None.
Proof.
  split; [|split; [reflexivity|]].
  - destruct (nested_reply_is_truncated unit (Some "key")
                (fun _ => Ok (Some [plain_nested_reply]))
                (fun _ => Raise SyntaxError)
                "top fashion creators" plain_nested_reply
                (q "{`category`: {`name`: `fashion`}") [] eq_refl eq_refl)
      as [_ [_ [_ H]]].
    + apply search_block_first. reflexivity.
    + vm_compute. lia.
    + destruct H as [_ [_ H]]; [vm_compute; lia|].
      apply (H SyntaxError); reflexivity.
  - destruct (nested_reply_is_truncated unit (Some "key")
                (fun _ => Ok (Some [open_string_reply]))
                (fun _ => Raise SyntaxError)
                "top fashion creators" open_string_reply
                open_string_reply [] eq_refl eq_refl)
      as [_ [_ [_ H]]].
    + apply search_block_first. reflexivity.
    + vm_compute. lia.
    + destruct H as [H _]; [vm_compute; lia | exact H].
Defined.

(** C10 as the specification words it: no reply with an object inside its
    first object would be parsed.  [nested_reply] is such a reply, a valid
    JSON text; its truncated block becomes a valid JSON text once the
    single quote is turned into a double quote, and [parse_query_llm]
    returns the object decoded from it. *)
Lemma nested_reply_is_parsed :
  loads nested_reply
  = Some (JObj [(text "a", JStr (text "',"));
                (text ":1,", JObj [(text ":2}", JInt 3)])])
  /\ first_block nested_reply (q "{`a`:`',`,`:1,`:{`:2}")
  /\ count_char "{" (q "{`a`:`',`,`:1,`:{`:2}") = 2
  /\ loads (replace_char sq dq (q "{`a`:`',`,`:1,`:{`:2}"))
     = Some (JObj [(text "a", JStr []); (text ",", JInt 1);
                   (text ":{", JInt 2)])
  /\ answering nested_reply "top fashion creators"
     = Ok (Hint (FromJson
              (JObj [(text "a", JStr []); (text ",", JInt 1);
                     (text ":{", JInt 2)]))).
Proof.
  repeat split; try reflexivity.
  apply search_block_first. reflexivity.
Qed.

End NestedReplyFacts.

Section CaseAndSpaceFacts.

Ltac by_cases_on_char c :=
  destruct c as [[] [] [] [] [] [] [] []]; reflexivity.

Lemma lower_char_idem (c : ascii) : lower_char (lower_char c) = lower_char c.
Proof. by_cases_on_char c. Qed.

Lemma lower_char_space (c : ascii) : is_space (lower_char c) = is_space c.
Proof. by_cases_on_char c. Qed.

Lemma lower_char_underscore (c : ascii) :
  lower_char (if Ascii.eqb c " " then "_"%char else c)
  = if Ascii.eqb (lower_char c) " " then "_"%char else lower_char c.
Proof. by_cases_on_char c. Qed.

Lemma underscore_space (c : ascii) :
  is_space c = false ->
  is_space (if Ascii.eqb c " " then "_"%char else c) = false.
Proof.
  intros H. destruct (Ascii.eqb_spec c " ") as [->|_];
    [discriminate H | exact H].
Qed.

Lemma underscore_twice (c : ascii) :
  Ascii.eqb (if Ascii.eqb c " " then "_"%char else c) " " = false.
Proof. destruct (Ascii.eqb c " ") eqn:E; [reflexivity | exact E]. Qed.

Lemma lower_idem (s : string) : lower (lower s) = lower s.
Proof.
  induction s as [|c s IH]; simpl; [reflexivity|].
  now rewrite lower_char_idem, IH.
Qed.

Lemma lower_app (a b : string) : lower (a ++ b) = lower a ++ lower b.
Proof. induction a as [|c a IH]; simpl; [reflexivity | now rewrite IH]. Qed.

Lemma lower_reverse (s : string) : lower (reverse s) = reverse (lower s).
Proof.
  induction s as [|c s IH]; simpl; [reflexivity|].
  now rewrite lower_app, IH.
Qed.

Lemma replace_char_app (x y : ascii) (a b : string) :
  replace_char x y (a ++ b) = replace_char x y a ++ replace_char x y b.
Proof. induction a as [|c a IH]; simpl; [reflexivity | now rewrite IH]. Qed.

Lemma replace_char_reverse (x y : ascii) (s : string) :
  replace_char x y (reverse s) = reverse (replace_char x y s).
Proof.
  induction s as [|c s IH]; simpl; [reflexivity|].
  now rewrite replace_char_app, IH.
Qed.

Lemma lstrip_clean (s : string) : clean_front (lstrip s).
Proof.
  induction s as [|c s IH]; simpl; [exact I|].
  destruct (is_space c) eqn:E; [exact IH | exact E].
Qed.

Lemma lstrip_id (s : string) : clean_front s -> lstrip s = s.
Proof. destruct s as [|c s]; simpl; [reflexivity|]. now intros ->. Qed.

Lemma strip_id (s : string) :
  clean_front s -> clean_front (reverse s) -> strip s = s.
Proof.
  intros Hf Hb. unfold strip, rstrip.
  rewrite (lstrip_id s Hf), (lstrip_id _ Hb). apply reverse_involutive.
Qed.

Lemma rstrip_clean_back (s : string) : clean_front (reverse (rstrip s)).
Proof. unfold rstrip. rewrite reverse_involutive. apply lstrip_clean. Qed.

Lemma rstrip_clean_front (s : string) : clean_front s -> clean_front (rstrip s).
Proof.
  intros H. destruct (rstrip_split s) as [ws [Hs _]].
  destruct (rstrip s) as [|c r]; [exact I|].
  rewrite Hs in H. exact H.
Qed.

Lemma strip_clean (s : string) :
  clean_front (strip s) /\ clean_front (reverse (strip s)).
Proof.
  unfold strip. split.
  - apply rstrip_clean_front, lstrip_clean.
  - apply rstrip_clean_back.
Qed.

Lemma lower_clean (s : string) : clean_front s -> clean_front (lower s).
Proof.
  destruct s as [|c s]; simpl; [trivial|]. now rewrite lower_char_space.
Qed.

Lemma lower_clean_inv (s : string) : clean_front (lower s) -> clean_front s.
Proof.
  destruct s as [|c s]; simpl; [trivial|]. now rewrite lower_char_space.
Qed.

Lemma underscore_clean (s : string) :
  clean_front s -> clean_front (replace_char " " "_" s).
Proof. destruct s as [|c s]; simpl; [trivial|]. apply underscore_space. Qed.

Lemma lower_underscore (s : string) :
  lower (replace_char " " "_" s) = replace_char " " "_" (lower s).
Proof.
  induction s as [|c s IH]; simpl; [reflexivity|].
  now rewrite lower_char_underscore, IH.
Qed.

Lemma underscore_idem (s : string) :
  replace_char " " "_" (replace_char " " "_" s) = replace_char " " "_" s.
Proof.
  induction s as [|c s IH]; simpl; [reflexivity|].
  now rewrite underscore_twice, IH.
Qed.

Lemma underscore_no_space (s : string) :
  HintParser.count_char " " (replace_char " " "_" s) = 0.
Proof.
  induction s as [|c s IH]; simpl; [reflexivity|].
  now rewrite underscore_twice, IH.
Qed.

(** X1: normalising a column name twice is normalising it once; the
    normalised name has no space, is in lower case, and has no white space
    at either end. *)
Theorem normalize_column_idempotent :
  forall col : string,
    normalize_column (normalize_column col) = normalize_column col
    /\ HintParser.count_char " " (normalize_column col) = 0
    /\ lower (normalize_column col) = normalize_column col
    /\ strip (normalize_column col) = normalize_column col.
Proof.
  intros col.
  assert (Hlow : lower (normalize_column col) = normalize_column col).
  { unfold normalize_column. now rewrite lower_underscore, lower_idem. }
  assert (Hstrip : strip (normalize_column col) = normalize_column col).
  { destruct (strip_clean col) as [Hf Hb]. unfold normalize_column.
    apply strip_id.
    - now apply underscore_clean, lower_clean.
    - rewrite <- replace_char_reverse, <- lower_reverse.
      now apply underscore_clean, lower_clean. }
  split; [|split; [apply underscore_no_space | split; assumption]].
  unfold normalize_column at 1. rewrite Hstrip, Hlow.
  unfold normalize_column. apply underscore_idem.
Qed.

End CaseAndSpaceFacts.

Section HistoryFacts.
Import History.

Lemma no_repeat_snoc (h : list string) (query : string) :
  no_repeat h ->
  match h with [] => True | _ :: _ => last h "" <> query end ->
  no_repeat (h ++ [query]).
Proof.
  induction h as [|a t IH]; intros Hn Hl; [exact I|].
  destruct t as [|b t'].
  - simpl in *. split; [exact Hl | exact I].
  - destruct Hn as [Hab Hn]. change ((a :: b :: t') ++ [query])%list
      with (a :: ((b :: t') ++ [query]))%list.
    change (no_repeat (a :: ((b :: t') ++ [query])%list))
      with (a <> b /\ no_repeat ((b :: t') ++ [query])%list).
    split; [exact Hab|]. apply IH; [exact Hn | exact Hl].
Qed.

Lemma append_query_keeps (query : string) (h : list string) :
  no_repeat h /\ ~ In "" h ->
  no_repeat (append_query query h) /\ ~ In "" (append_query query h).
Proof.
  intros [Hn He]. unfold append_query.
  destruct (truthy query) eqn:Hq; [|now split].
  destruct h as [|a t].
  - simpl. split; [exact I|]. intros [H | []]. subst. discriminate.
  - cbn [andb]. destruct (String.eqb_spec (last (a :: t) "") query) as [E | E];
      cbn [negb]; [now split|].
    split.
    + apply no_repeat_snoc; assumption.
    + intros H. apply in_app_or in H. destruct H as [H | [H | []]];
        [contradiction | subst; discriminate].
Qed.

Lemma fold_append_query_keeps (queries h : list string) :
  no_repeat h /\ ~ In "" h ->
  no_repeat (fold_left (fun h q => append_query q h) queries h)
  /\ ~ In "" (fold_left (fun h q => append_query q h) queries h).
Proof.
  revert h. induction queries as [|q qs IH]; intros h Hh; simpl; [exact Hh|].
  apply IH, append_query_keeps, Hh.
Qed.

(** X2: whatever queries are entered during a session, the history never
    holds the empty query and never holds the same query twice in a row. *)
Theorem session_history_invariant :
  forall queries : list string,
    no_repeat (session queries) /\ ~ In "" (session queries).
Proof.
  intros queries. apply fold_append_query_keeps. split; [exact I|].
  intros [].
Qed.

Lemma append_query_last (query : string) (h : list string) :
  truthy query = true ->
  exists front, append_query query h = (front ++ [query])%list.
Proof.
  intros Hq. unfold append_query. rewrite Hq.
  destruct h as [|a t]; [now exists []|]. cbn [andb].
  destruct (String.eqb_spec (last (a :: t) "") query) as [E | E]; cbn [negb].
  - exists (removelast (a :: t)). rewrite <- E.
    apply app_removelast_last. discriminate.
  - now exists (a :: t).
Qed.

(** X3: the history shows at most five queries, the latest first: they are
    the last entries of the history in reverse order, and after a run with
    a non-empty query that query is on top. *)
Theorem shown_history_latest_first :
  forall (query : string) (h : list string),
    List.length (shown h) <= 5
    /\ (exists older, h = (older ++ List.rev (shown h))%list)
    /\ (truthy query = true ->
        exists rest, shown (append_query query h) = query :: rest).
Proof.
  intros query h. unfold shown. split; [|split].
  - rewrite length_rev, length_skipn. lia.
  - exists (firstn (List.length h - 5) h).
    rewrite rev_involutive. symmetry. apply firstn_skipn.
  - intros Hq. destruct (append_query_last query h Hq) as [front ->].
    rewrite length_app. simpl.
    rewrite skipn_app.
    replace (List.length front + 1 - 5 - List.length front) with 0 by lia.
    simpl. rewrite rev_app_distr. simpl. now eexists.
Qed.

Lemma shown_history_latest_first_witness :
  exists rest,
    shown (append_query "tech creators"
             ["a"; "b"; "c"; "d"; "e"; "tech creators"])
    = "tech creators" :: rest.
Proof.
  apply (shown_history_latest_first "tech creators"
           ["a"; "b"; "c"; "d"; "e"; "tech creators"]).
  reflexivity.
Defined.

End HistoryFacts.

Section ResolverMoreFacts.
Import Resolver.

Lemma occurs_in_trans (a b c : string) :
  occurs_in a b -> occurs_in b c -> occurs_in a c.
Proof.
  intros [p1 [q1 ->]] [p2 [q2 ->]]. exists (p2 ++ p1), (q1 ++ q2).
  now rewrite !append_assoc.
Qed.

Lemma first_match_reaches (ql c1 : string) (pre rest : list string) :
  contains (lower c1) ql = true ->
  exists c, first_match ql (pre ++ c1 :: rest)%list = Some c
            /\ In c (pre ++ [c1])%list.
Proof.
  intros Hc. induction pre as [|d pre [c [Hf Hin]]]; simpl.
  - rewrite Hc. exists c1. split; [reflexivity | now left].
  - destruct (contains (lower d) ql).
    + exists d. split; [reflexivity | now left].
    + exists c. split; [exact Hf | now right].
Qed.

(** X4: the category [extract_category_basic] returns is one of the
    vocabulary, and a category whose name contains the name of an earlier
    one is never reached: a query that mentions it resolves to that earlier
    category or to one before it. *)
Theorem extract_category_basic_shadowing :
  forall (query : string) (categories : list string),
    (forall c, extract_category_basic query categories = Some c ->
               In c categories /\ matches query c)
    /\ (forall pre c1 mid c2 post,
          categories = (pre ++ c1 :: mid ++ c2 :: post)%list ->
          occurs_in (lower c1) (lower c2) ->
          matches query c2 ->
          exists c, extract_category_basic query categories = Some c
                    /\ In c (pre ++ [c1])%list).
Proof.
  intros query categories. split.
  - intros c H. unfold extract_category_basic in H.
    apply first_match_some in H. destruct H as [pre [post [-> [Hm _]]]].
    split; [apply in_or_app; right; now left | now apply contains_spec].
  - intros pre c1 mid c2 post -> H12 H2. unfold extract_category_basic.
    apply first_match_reaches. apply contains_spec.
    exact (occurs_in_trans _ _ _ H12 H2).
Qed.

Lemma first_match_cells_strings (ql : string) (cats : list string) :
  first_match_cells ql (map Some cats) = Ok (first_match ql cats).
Proof.
  induction cats as [|c cats IH]; simpl; [reflexivity|].
  destruct (contains (lower c) ql); [reflexivity | exact IH].
Qed.

Lemma first_match_cells_raises (ql : string) (cells : list (option string))
    (e : exn) :
  first_match_cells ql cells = Raise e <->
  e = AttributeError
  /\ exists pre rest,
       cells = (map Some pre ++ None :: rest)%list
       /\ Forall (fun d => contains (lower d) ql = false) pre.
Proof.
  induction cells as [|[c|] cells IH]; simpl.
  - split; [discriminate|].
    intros [_ [[|? ?] [? [H _]]]]; discriminate H.
  - destruct (contains (lower c) ql) eqn:Hc.
    + split; [discriminate|].
      intros [_ [[|d pre] [rest [H Hall]]]]; simpl in H; [discriminate H|].
      injection H as -> _. inversion Hall; congruence.
    + rewrite IH. split.
      * intros [-> [pre [rest [-> Hall]]]]. split; [reflexivity|].
        exists (c :: pre), rest. split; [reflexivity | now constructor].
      * intros [-> [[|d pre] [rest [H Hall]]]]; simpl in H; [discriminate H|].
        injection H as -> ->. split; [reflexivity|].
        exists pre, rest. split; [reflexivity | now inversion Hall].
  - split.
    + intros [= <-]. split; [reflexivity|]. exists [], cells.
      split; [reflexivity | constructor].
    + now intros [-> _].
Qed.

(** X6: on the vocabulary read from the table, [extract_category_basic]
    raises [AttributeError] exactly when a missing category cell comes
    before every category the query mentions; on a vocabulary without
    missing cell it raises nothing and is the function on strings. *)
Theorem extract_category_missing_cell :
  forall (query : string) (cells : list (option string)),
    (forall e,
       extract_category_cells query cells = Raise e <->
       e = AttributeError
       /\ exists pre rest,
            cells = (map Some pre ++ None :: rest)%list
            /\ Forall (fun d => ~ matches query d) pre)
    /\ (forall cats,
          cells = map Some cats ->
          extract_category_cells query cells
          = Ok (extract_category_basic query cats)).
Proof.
  intros query cells. unfold extract_category_cells. split.
  - intros e. rewrite first_match_cells_raises.
    split; intros [-> [pre [rest [-> Hall]]]]; (split; [reflexivity|]);
      exists pre, rest; (split; [reflexivity|]);
      rewrite Forall_forall in *; intros d Hd; apply not_matches_iff;
      now apply Hall.
  - intros cats ->. apply first_match_cells_strings.
Qed.

Lemma extract_category_missing_cell_witness :
  extract_category_cells "top tech creators"
    (categories Samples.with_missing_category)
  = Raise AttributeError
  /\ extract_category_cells "top fashion creators" (map Some ["fashion"])
     = Ok (Some "fashion").
Proof.
  split.
  - apply (proj1 (extract_category_missing_cell "top tech creators"
                    (categories Samples.with_missing_category))).
    split; [reflexivity|]. exists ["fashion"], [].
    split; [reflexivity|]. constructor; [|constructor].
    intros H. apply contains_spec in H. discriminate H.
  - apply (proj2 (extract_category_missing_cell "top fashion creators"
                    (map Some ["fashion"])) ["fashion"]).
    reflexivity.
Defined.

End ResolverMoreFacts.

Section HintParserMoreFacts.
Import Json HintParser JsonStack.

Lemma scan_number_not_str (s rest : string) (v : value) :
  scan_number s = Some (v, rest) -> forall k, v <> JStr k.
Proof.
  unfold scan_number. destruct (scan_int s) as [[i r]|]; [|discriminate].
  destruct (scan_frac r) as [f r1]. destruct (scan_exp r1) as [x r2].
  destruct f, x; try (intros [= <- _] k; discriminate).
  destruct (digit_count i <=? int_max_str_digits); [|discriminate].
  intros [= <- _] k; discriminate.
Qed.

Lemma scan_word_not_str (s rest : string) (v : value) :
  scan_word s = Some (v, rest) -> forall k, v <> JStr k.
Proof.
  unfold scan_word.
  repeat match goal with
         | |- context [if startswith ?p s then _ else _] =>
             destruct (startswith p s);
             [intros [= <- _] k; discriminate|]
         | |- context [match scan_number s with _ => _ end] =>
             destruct (scan_number s) as [[v' r']|] eqn:?;
             [intros [= <- _]; eapply scan_number_not_str; eassumption|]
         end.
  discriminate.
Qed.

Lemma run_after_open_brace (t : token) (ts : list token) :
  t <> TRBrace -> (forall k, t <> TScalar (JStr k)) ->
  run ([], EValue) (TLBrace :: t :: ts) = None.
Proof.
  intros Hc Hk. cbn [run step start_value].
  destruct t as [| | | | | |v]; try reflexivity; try congruence.
  destruct v; try reflexivity. exfalso. now apply (Hk s).
Qed.

Lemma loads_after_open_brace (c : ascii) (rest : string) :
  json_ws c = false -> c <> dq -> c <> "}"%char ->
  loads (String "{" (String c rest)) = None.
Proof.
  intros Hws Hdq Hclose. unfold loads, tokenize.
  cbn [String.length lex json_ws].
  change (json_ws "{") with false. cbn [Ascii.eqb Bool.eqb].
  rewrite Hws.
  assert (Hcons : forall t r,
            t <> TRBrace -> (forall k, t <> TScalar (JStr k)) ->
            match cons_token TLBrace (cons_token t r) with
            | Tokens ts => run ([], EValue) ts
            | _ => None
            end = None).
  { intros t r H1 H2. destruct r as [ts| |]; try reflexivity.
    now apply run_after_open_brace. }
  apply Ascii.eqb_neq in Hdq. apply Ascii.eqb_neq in Hclose.
  rewrite Hclose, Hdq.
  destruct (Ascii.eqb c "{"); [apply Hcons; discriminate|].
  destruct (Ascii.eqb c "["); [apply Hcons; discriminate|].
  destruct (Ascii.eqb c "]"); [apply Hcons; discriminate|].
  destruct (Ascii.eqb c ":"); [apply Hcons; discriminate|].
  destruct (Ascii.eqb c ","); [apply Hcons; discriminate|].
  destruct (scan_word (String c rest)) as [[v r]|] eqn:E; [|reflexivity].
  apply Hcons; [discriminate|].
  intros k [= H]. exact (scan_word_not_str _ _ _ E k H).
Qed.

End HintParserMoreFacts.

Section DecodedHintFacts.
Import Json HintParser JsonStack.

Lemma bottom_object_push (c : container) (stack : list container) :
  bottom_object stack = true -> bottom_object (c :: stack) = true.
Proof. destruct stack as [|d rest]; [discriminate | trivial]. Qed.

Lemma deliver_bottom (v : value) (stack : list container) :
  bottom_object stack = true -> bottom_object (fst (deliver v stack)) = true.
Proof.
  destruct stack as [|[m k|items] [|d rest]]; simpl; trivial; discriminate.
Qed.

Lemma deliver_after_pop (v : value) (c : container) (rest : list container) :
  bottom_object (c :: rest) = true ->
  match rest with
  | [] => exists m k, c = InObject m k
  | _ :: _ => bottom_object (fst (deliver v rest)) = true
  end.
Proof.
  destruct rest as [|d rest']; intros H.
  - destruct c as [m k|items]; [now exists m, k | discriminate].
  - now apply deliver_bottom.
Qed.

Lemma step_bottom (stack stack' : list container) (e e' : expect) (t : token) :
  bottom_object stack = true ->
  step (stack, e) t = Some (stack', e') ->
  bottom_object stack' = true \/ (stack' = [] /\ exists m, e' = EDone (JObj m)).
Proof.
  intros Hb.
  assert (Hstart : start_value t stack = Some (stack', e') ->
                   bottom_object stack' = true).
  { destruct t; simpl; try discriminate.
    - intros [= <- _]. now apply bottom_object_push.
    - intros [= <- _]. now apply bottom_object_push.
    - intros [= H]. change stack' with (fst (stack', e')). rewrite <- H.
      now apply deliver_bottom. }
  assert (Hkey : forall k, set_key k stack = Some (stack', e') ->
                           bottom_object stack' = true).
  { intros k. unfold set_key. destruct stack as [|[m k'|items] rest];
      try discriminate. intros [= <- _].
    destruct rest; [reflexivity | exact Hb]. }
  assert (Hobj : close_object stack = Some (stack', e') ->
                 bottom_object stack' = true
                 \/ (stack' = [] /\ exists m, e' = EDone (JObj m))).
  { unfold close_object. destruct stack as [|[m k|items] rest];
      try discriminate. intros [= H].
    pose proof (deliver_after_pop (JObj m) _ _ Hb) as Hp.
    destruct rest as [|d rest'].
    - right. simpl in H. injection H as <- <-. split; [reflexivity|].
      now exists m.
    - left. change stack' with (fst (stack', e')). rewrite <- H. exact Hp. }
  assert (Harr : close_array stack = Some (stack', e') ->
                 bottom_object stack' = true).
  { unfold close_array. destruct stack as [|[m k|items] rest];
      try discriminate. intros [= H].
    pose proof (deliver_after_pop (JArr items) _ _ Hb) as Hp.
    destruct rest as [|d rest']; [discriminate Hb|].
    change stack' with (fst (stack', e')). rewrite <- H. exact Hp. }
  unfold step. destruct e as [| | | | | |done]; destruct t as [| | | | | |v];
    try discriminate; auto;
    try (destruct v; try discriminate; intros H; left; eapply Hkey, H).
  - intros [= <- _]. now left.
  - destruct stack as [|[m k|items] rest]; try discriminate;
      intros [= <- _]; now left.
Qed.

Lemma run_bottom (ts : list token) :
  forall stack e v,
    bottom_object stack = true ->
    run (stack, e) ts = Some v -> exists m, v = JObj m.
Proof.
  induction ts as [|t ts IH]; intros stack e v Hb H; cbn [run] in H.
  - destruct stack; [discriminate Hb | discriminate H].
  - destruct (step (stack, e) t) as [[stack' e']|] eqn:E; [|discriminate].
    destruct (step_bottom _ _ _ _ _ Hb E) as [Hb' | [-> [m ->]]].
    + exact (IH _ _ _ Hb' H).
    + destruct ts as [|t' ts']; cbn [run step] in H.
      * injection H as <-. now exists m.
      * discriminate H.
Qed.

Lemma lex_open_brace (fuel : nat) (s : string) :
  lex (S fuel) (String "{" s) = cons_token TLBrace (lex fuel s).
Proof. reflexivity. Qed.

Lemma loads_object (s : string) (v : value) :
  loads (String "{" s) = Some v -> exists m, v = JObj m.
Proof.
  unfold loads, tokenize. cbn [String.length]. rewrite lex_open_brace.
  destruct (lex (S (String.length s)) s) as [ts| |]; try discriminate.
  cbn [cons_token run step start_value]. apply run_bottom. reflexivity.
Qed.

Lemma parse_query_llm_on_block (pyobj : Type) (api_key : option string)
    (complete_create : string -> outcome (option (list string)))
    (py_eval : string -> outcome pyobj) (query text block : string)
    (others : list string) :
  key_available api_key = true ->
  complete_create (prompt query) = Ok (Some (text :: others)) ->
  first_block text block ->
  parse_query_llm pyobj api_key complete_create py_eval query
  = except_Exception pyobj
      match decode_block pyobj py_eval block with
      | Ok p => Ok (Hint p)
      | Raise e => Raise e
      end.
Proof.
  intros Hk Hc Hb. rewrite (parse_query_llm_on_text _ _ _ _ _ _ _ Hk Hc).
  unfold parse_text. rewrite search_block_strip.
  apply search_block_first in Hb. now rewrite Hb.
Qed.

Lemma first_block_shape (text block : string) :
  first_block text block -> exists body, block = String "{" body.
Proof. intros [pre [mid [post [_ [_ [_ ->]]]]]]. now eexists. Qed.

(** X9: when the strict decoding of the block succeeds, the hint is the
    decoded value, which is a JSON object (a [dict]), and [eval] has no
    part in it: any other [eval] gives the same hint. *)
Theorem strict_hint_is_object_without_eval :
  forall (pyobj : Type) (api_key : option string)
         (complete_create : string -> outcome (option (list string)))
         (py_eval : string -> outcome pyobj)
         (query text block : string) (others : list string) (v : value),
    key_available api_key = true ->
    complete_create (prompt query) = Ok (Some (text :: others)) ->
    first_block text block ->
    loads (replace_char sq dq block) = Some v ->
    (exists members, v = JObj members)
    /\ forall py_eval' : string -> outcome pyobj,
         parse_query_llm pyobj api_key complete_create py_eval' query
         = Ok (Hint (FromJson v)).
Proof.
  intros pyobj api_key complete_create py_eval query text block others v
         Hk Hc Hb Hl.
  split.
  - destruct (first_block_shape _ _ Hb) as [body ->].
    simpl in Hl. now apply loads_object in Hl.
  - intros py_eval'.
    rewrite (parse_query_llm_on_block _ _ _ _ _ _ _ _ Hk Hc Hb).
    unfold decode_block. now rewrite Hl.
Qed.

Lemma strict_hint_is_object_without_eval_witness :
  parse_query_llm unit (Some "key") (fun _ => Ok (Some [chatty_reply]))
    (fun _ => Raise SystemExit) "top fashion creators"
  = Ok (Hint (FromJson
          (JObj [(text "category", JStr (text "fashion"));
                 (text "follower_filter", JStr (text ">10000"))]))).
Proof.
  apply (strict_hint_is_object_without_eval unit (Some "key")
           (fun _ => Ok (Some [chatty_reply])) (fun _ => Raise SyntaxError)
           "top fashion creators" chatty_reply
           (q "{`category`:`fashion`,`follower_filter`:`>10000`}") []);
    try reflexivity.
  apply search_block_first. reflexivity.
Defined.

(** X10: a block whose first character after the opening brace is not
    white space, a quote or the closing brace is never a JSON text, so the
    block goes to [eval] as it is: the hint is whatever [eval] returns for
    it.  An exception that [eval] raises and [except Exception] catches
    gives a parsing error, unless putting it into the message raises in
    turn; any other exception leaves [parse_query_llm]. *)
Theorem unquoted_block_goes_to_eval :
  forall (pyobj : Type) (api_key : option string)
         (complete_create : string -> outcome (option (list string)))
         (py_eval : string -> outcome pyobj)
         (query text : string) (others : list string)
         (c : ascii) (rest : string),
    key_available api_key = true ->
    complete_create (prompt query) = Ok (Some (text :: others)) ->
    first_block text (String "{" (String c rest)) ->
    json_ws c = false -> c <> dq -> c <> sq -> c <> "}"%char ->
    loads (replace_char sq dq (String "{" (String c rest))) = None
    /\ parse_query_llm pyobj api_key complete_create py_eval query
       = match py_eval (String "{" (String c rest)) with
         | Ok o => Ok (Hint (FromEval o))
         | Raise e =>
             if is_Exception e then
               match format_raises e with
               | Some raised => Raise raised
               | None => Ok (NoHint ParsingError)
               end
             else Raise e
         end.
Proof.
  intros pyobj api_key complete_create py_eval query text others c rest
         Hk Hc Hb Hws Hdq Hsq Hclose.
  assert (Hl : loads (replace_char sq dq (String "{" (String c rest))) = None).
  { cbn [replace_char]. change (Ascii.eqb "{" sq) with false. cbv iota.
    apply Ascii.eqb_neq in Hsq. rewrite Hsq.
    now apply loads_after_open_brace. }
  split; [exact Hl|].
  rewrite (parse_query_llm_on_block _ _ _ _ _ _ _ _ Hk Hc Hb).
  unfold decode_block. rewrite Hl.
  now destruct (py_eval (String "{" (String c rest))).
Qed.

Lemma unquoted_block_goes_to_eval_witness :
  parse_query_llm unit (Some "key")
    (fun _ => Ok (Some [Samples.expression_reply]))
    (fun _ => Raise SystemExit) "top fashion creators"
  = Raise SystemExit.
Proof.
  apply (unquoted_block_goes_to_eval unit (Some "key")
           (fun _ => Ok (Some [Samples.expression_reply]))
           (fun _ => Raise SystemExit) "top fashion creators"
           Samples.expression_reply [] "e"%char "xit()}");
    try reflexivity; try discriminate.
  apply search_block_first. reflexivity.
Defined.

End DecodedHintFacts.

Section RankingMoreFacts.

Lemma filter_idem {A : Type} (p : A -> bool) (l : list A) :
  filter p (filter p l) = filter p l.
Proof.
  induction l as [|x l IH]; simpl; [reflexivity|].
  destruct (p x) eqn:E; simpl; [rewrite E; now f_equal | exact IH].
Qed.

Lemma filter_length_le {A : Type} (p : A -> bool) (l : list A) :
  List.length (filter p l) <= List.length l.
Proof.
  induction l as [|x l IH]; simpl; [lia|]. destruct (p x); simpl; lia.
Qed.

Lemma apply_follower_filter_length (op : ascii) (value : Z) (df : frame) :
  List.length (apply_follower_filter op value df) <= List.length df.
Proof.
  unfold apply_follower_filter.
  repeat match goal with |- context [if ?b then _ else _] => destruct b end;
    try apply filter_length_le; lia.
Qed.

Lemma filter_frame_length (df df' : frame) (cat : string) (ff : option string) :
  filter_frame df (Some cat) ff = Ok df' ->
  List.length df' <= List.length (filter (category_is (lower cat)) df).
Proof.
  unfold filter_frame. intros H.
  destruct ff as [ff|]; [|injection H as <-; lia].
  destruct (truthy ff); [|injection H as <-; lia].
  destruct (parse_comparison ff) as [[[op v]|]|e]; try discriminate;
    injection H as <-; [apply apply_follower_filter_length | lia].
Qed.

Lemma ranked_rows_in_category (df : frame) (cat : string) (ff : option string)
    (we wf wl : Q) (ranked : list scored) (s : scored) :
  rank_creators df (Some cat) ff we wf wl (Ok ranked) ->
  In s ranked ->
  In (src s) df /\ exists c, category (src s) = Some c /\ lower c = lower cat.
Proof.
  intros H Hs.
  apply rank_creators_ok_inv in H. destruct H as [df' [Hf [Hp _]]].
  pose proof (filter_frame_incl _ _ _ _ Hf) as Hincl.
  apply (in_map src) in Hs.
  apply (Permutation_in _ (Permutation_sym (ranked_sources _ _ _ _ _ _ Hp)))
    in Hs.
  apply Hincl, filter_In in Hs. destruct Hs as [Hin Hc].
  split; [exact Hin|]. unfold category_is in Hc.
  destruct (category (src s)) as [c|]; [|discriminate].
  exists c. split; [reflexivity | now apply String.eqb_eq].
Qed.

(** X11: whatever the follower-filter text, every row [rank_creators]
    returns is a row of the table whose category is the requested one up to
    letter case, and there are no more of them than rows of that category. *)
Theorem rank_creators_rows_of_category :
  forall (df : frame) (cat : string) (ff : option string) (we wf wl : Q)
         (ranked : list scored),
    rank_creators df (Some cat) ff we wf wl (Ok ranked) ->
    (forall s, In s ranked ->
       In (src s) df
       /\ exists c, category (src s) = Some c /\ lower c = lower cat)
    /\ List.length ranked
       <= List.length (filter (category_is (lower cat)) df).
Proof.
  intros df cat ff we wf wl ranked H. split.
  - intros s Hs. exact (ranked_rows_in_category _ _ _ _ _ _ _ _ H Hs).
  - apply rank_creators_ok_inv in H. destruct H as [df' [Hf [Hp _]]].
    rewrite <- (Permutation_length Hp), length_map.
    exact (filter_frame_length _ _ _ _ Hf).
Qed.

Lemma rank_creators_rows_of_category_witness :
  In (src Scenario.scored_B) Scenario.records
  /\ exists c, category (src Scenario.scored_B) = Some c
               /\ lower c = lower "Fashion".
Proof.
  apply (rank_creators_rows_of_category Scenario.records "Fashion"
           (Some ">5000") 0.5%Q 0.3%Q 0.2%Q
           [Scenario.scored_A; Scenario.scored_B]).
  - eapply rank_returns; [reflexivity|].
    apply sort_values_desc_pair; reflexivity.
  - right. now left.
Defined.

Lemma score_frame_same_rows (df1 df2 : frame) (cat1 cat2 : string)
    (ff : option string) (we wf wl : Q) :
  filter (category_is (lower cat1)) df1 = filter (category_is (lower cat2)) df2 ->
  score_frame df1 (Some cat1) ff we wf wl
  = score_frame df2 (Some cat2) ff we wf wl.
Proof. intros H. unfold score_frame, filter_frame. now rewrite H. Qed.

Lemma rank_creators_same_frame (df1 df2 : frame) (c1 c2 ff : option string)
    (we wf wl : Q) (out : outcome (list scored)) :
  score_frame df1 c1 ff we wf wl = score_frame df2 c2 ff we wf wl ->
  rank_creators df1 c1 ff we wf wl out -> rank_creators df2 c2 ff we wf wl out.
Proof.
  intros E H. inversion H as [e He | l r Hl Hs]; subst.
  - apply rank_raises. now rewrite <- E.
  - eapply rank_returns; [|exact Hs]. now rewrite <- E.
Qed.

(** X12: the result depends on the table only through the rows of the
    requested category, and on the category only up to letter case: two
    tables with the same rows of the category, asked with names equal up to
    case, have the same results.  So rows of other categories never enter
    the normalisation of the follower score. *)
Theorem rank_creators_only_category_rows :
  forall (df1 df2 : frame) (cat1 cat2 : string) (ff : option string)
         (we wf wl : Q) (out : outcome (list scored)),
    lower cat1 = lower cat2 ->
    filter (category_is (lower cat1)) df1
    = filter (category_is (lower cat1)) df2 ->
    (rank_creators df1 (Some cat1) ff we wf wl out <->
     rank_creators df2 (Some cat2) ff we wf wl out)
    /\ (rank_creators df1 (Some cat1) ff we wf wl out <->
        rank_creators (filter (category_is (lower cat1)) df1) (Some cat1)
          ff we wf wl out).
Proof.
  intros df1 df2 cat1 cat2 ff we wf wl out Hc Hf. split.
  - assert (E : score_frame df1 (Some cat1) ff we wf wl
                = score_frame df2 (Some cat2) ff we wf wl).
    { apply score_frame_same_rows. now rewrite <- Hc. }
    split; intros H;
      [exact (rank_creators_same_frame _ _ _ _ _ _ _ _ _ E H)
      |exact (rank_creators_same_frame _ _ _ _ _ _ _ _ _ (eq_sym E) H)].
  - assert (E : score_frame df1 (Some cat1) ff we wf wl
                = score_frame (filter (category_is (lower cat1)) df1)
                    (Some cat1) ff we wf wl).
    { apply score_frame_same_rows. now rewrite filter_idem. }
    split; intros H;
      [exact (rank_creators_same_frame _ _ _ _ _ _ _ _ _ E H)
      |exact (rank_creators_same_frame _ _ _ _ _ _ _ _ _ (eq_sym E) H)].
Qed.

Lemma rank_creators_only_category_rows_witness :
  rank_creators Scenario.records (Some "fashion") (Some ">5000")
    0.5%Q 0.3%Q 0.2%Q (Ok [Scenario.scored_A; Scenario.scored_B])
  <-> rank_creators (Scenario.records ++ [Scenario.uncategorised])%list
        (Some "FASHION") (Some ">5000") 0.5%Q 0.3%Q 0.2%Q
        (Ok [Scenario.scored_A; Scenario.scored_B]).
Proof.
  apply (rank_creators_only_category_rows Scenario.records
           (Scenario.records ++ [Scenario.uncategorised])%list "fashion" "FASHION");
    reflexivity.
Defined.

End RankingMoreFacts.

Section ComparisonMoreFacts.

Lemma int_digits_nonneg (s : string) :
  forall acc, (0 <= acc)%Z -> (0 <= int_digits acc s)%Z.
Proof.
  induction s as [|c s IH]; intros acc Hacc; cbn [int_digits]; [exact Hacc|].
  apply IH. unfold digit_value.
  pose proof (Zle_0_nat (nat_of_ascii c - 48)) as Hd. lia.
Qed.

(** X15: the number a filter text is compared with is never negative, and
    a text with a minus sign after the operator is no filter at all: a
    negative threshold cannot be asked for. *)
Theorem comparison_value_nonnegative :
  forall (text : string),
    (forall op value,
       parse_comparison text = Ok (Some (op, value)) -> (0 <= value)%Z)
    /\ (forall op ws rest,
          all_chars is_space ws = true ->
          parse_comparison (String op (ws ++ String "-" rest)) = Ok None).
Proof.
  intros text. split.
  - intros op value. unfold parse_comparison, int_py.
    destruct (re_match_comparison text) as [[op' ds]|]; [|discriminate].
    destruct (String.length ds <=? int_max_str_digits); [|discriminate].
    intros [= _ <-]. now apply int_digits_nonneg.
  - intros op ws rest Hws. unfold parse_comparison, re_match_comparison.
    destruct (is_cmp_op op); [|reflexivity].
    rewrite lstrip_app; [reflexivity | exact Hws | reflexivity].
Qed.

(** X16: for one threshold the three follower filters split the table:
    every row passes exactly one of [>], [=], [<], so the three results
    together are the table, row for row. *)
Theorem follower_filters_partition :
  forall (value : Z) (df : frame),
    Permutation
      (apply_follower_filter ">" value df
       ++ apply_follower_filter "=" value df
       ++ apply_follower_filter "<" value df)%list
      df.
Proof.
  intros value df.
  change (Permutation
            (filter (fun r => (follower_count r >? value)%Z) df
             ++ filter (fun r => (follower_count r =? value)%Z) df
             ++ filter (fun r => (follower_count r <? value)%Z) df)%list
            df).
  induction df as [|r df IH]; simpl; [constructor|].
  destruct (Z.compare_spec (follower_count r) value) as [E | E | E].
  - replace (follower_count r >? value)%Z with false by (symmetry; lia).
    replace (follower_count r =? value)%Z with true by (symmetry; lia).
    replace (follower_count r <? value)%Z with false by (symmetry; lia).
    apply Permutation_sym, Permutation_cons_app, Permutation_sym, IH.
  - replace (follower_count r >? value)%Z with false by (symmetry; lia).
    replace (follower_count r =? value)%Z with false by (symmetry; lia).
    replace (follower_count r <? value)%Z with true by (symmetry; lia).
    apply Permutation_sym. rewrite app_assoc.
    apply Permutation_cons_app. rewrite <- app_assoc.
    apply Permutation_sym, IH.
  - replace (follower_count r >? value)%Z with true by (symmetry; lia).
    replace (follower_count r =? value)%Z with false by (symmetry; lia).
    replace (follower_count r <? value)%Z with false by (symmetry; lia).
    simpl. apply perm_skip, IH.
Qed.

End ComparisonMoreFacts.

Section MainFacts.
Import Main.

Lemma strip_padded (lead s trail : string) :
  all_chars is_space lead = true -> all_chars is_space trail = true ->
  s <> "" -> clean_front s -> clean_front (reverse s) ->
  strip (lead ++ s ++ trail) = s.
Proof.
  intros Hl Ht Hne Hf Hb. unfold strip, rstrip.
  rewrite (lstrip_app lead (s ++ trail) Hl).
  - rewrite reverse_app, lstrip_app.
    + apply reverse_involutive.
    + now rewrite all_chars_reverse.
    + exact Hb.
  - destruct s as [|c s]; [congruence | exact Hf].
Qed.

(** X17: the follower-filter text is either dropped or passed on as it is,
    never rewritten; it is dropped when it is empty and when, without the
    white space around it and in lower case, it reads [show all]. *)
Theorem normalize_follower_filter_show_all :
  forall ff : string,
    (forall text, normalize_follower_filter ff = Some text ->
                  text = ff /\ ff <> "" /\ lower (strip ff) <> "show all")
    /\ (forall lead s trail,
          ff = lead ++ s ++ trail ->
          all_chars is_space lead = true ->
          all_chars is_space trail = true ->
          lower s = "show all" ->
          normalize_follower_filter ff = None).
Proof.
  intros ff. unfold normalize_follower_filter. split.
  - intros text. destruct ff as [|c ff']; [discriminate|]. cbn [truthy negb orb].
    destruct (String.eqb_spec (lower (strip (String c ff'))) "show all")
      as [E | E]; [discriminate|].
    intros [= <-]. repeat split; [discriminate | exact E].
  - intros lead s trail -> Hl Ht Hs.
    assert (Hstrip : strip (lead ++ s ++ trail) = s).
    { apply strip_padded; try assumption.
      - intros ->. discriminate Hs.
      - apply lower_clean_inv. now rewrite Hs.
      - apply lower_clean_inv. rewrite lower_reverse, Hs. reflexivity. }
    rewrite Hstrip, Hs. now rewrite orb_true_r.
Qed.

Lemma normalize_follower_filter_show_all_witness :
  normalize_follower_filter (q "  SHOW All   ") = None.
Proof.
  apply (proj2 (normalize_follower_filter_show_all (q "  SHOW All   "))
           "  " "SHOW All" "   "); reflexivity.
Defined.

Lemma in_firstn {A : Type} (n : nat) (l : list A) (x : A) :
  In x (firstn n l) -> In x l.
Proof.
  intros H. rewrite <- (firstn_skipn n l). apply in_or_app. now left.
Qed.

Lemma detect_category_found (selected : option string) (query c : string)
    (df : frame) (cats : list string) :
  categories df = map Some cats ->
  Resolver.extract_category_basic query cats = Some c -> c <> "" ->
  detect_category selected query (categories df) = Ok (Some c).
Proof.
  intros Hc He Hne. unfold detect_category, extract_category_cells.
  rewrite Hc, first_match_cells_strings.
  unfold Resolver.extract_category_basic in He. rewrite He.
  destruct c; [congruence | reflexivity].
Qed.

Lemma normalized_filter_raises (ff : string) (e : exn) :
  follower_filter_raises (normalize_follower_filter ff) = Some e ->
  e = ValueError
  /\ exists op digits,
       comparison_shape ff op digits /\ 4300 < String.length digits.
Proof.
  intros H. apply follower_filter_raises_iff in H.
  destruct H as [-> [text [op [ds [Hn [Hs Hl]]]]]]. split; [reflexivity|].
  exists op, ds. split; [|exact Hl].
  unfold normalize_follower_filter in Hn.
  destruct (negb (truthy ff) || String.eqb (lower (strip ff)) "show all");
    [discriminate|].
  now injection Hn as ->.
Qed.

(** X19: one run of the script without the interpreter, on a table whose
    category cells are all present, for a query that mentions a category.
    When the follower-filter text is a comparison of more than 4300 digits
    the run ends in the [ValueError] of [int], and in no other case does it
    raise: it then shows results or the warning that no creator was found,
    and every row of the table it shows belongs to the first category the
    query mentions, whatever the select box holds. *)
Theorem run_basic_shows_detected_category :
  forall (df : frame) (selected : option string) (query ff : string)
         (we wf wl : Q) (cats : list string) (c : string),
    truthy query = true ->
    categories df = map Some cats ->
    Resolver.extract_category_basic query cats = Some c ->
    c <> "" ->
    (exists out, run_basic df selected query ff we wf wl out)
    /\ (forall out,
          run_basic df selected query ff we wf wl out ->
          match follower_filter_raises (normalize_follower_filter ff) with
          | Some e => out = Raise e
          | None =>
              out = Ok NoCreators
              \/ exists details table,
                   out = Ok (Results details table)
                   /\ forall s, In s table ->
                        In (src s) df
                        /\ exists c', category (src s) = Some c'
                                      /\ lower c' = lower c
          end)
    /\ (forall e,
          follower_filter_raises (normalize_follower_filter ff) = Some e ->
          e = ValueError
          /\ exists op digits,
               comparison_shape ff op digits
               /\ 4300 < String.length digits).
Proof.
  intros df selected query ff we wf wl cats c Hq Hc He Hne.
  unfold run_basic. rewrite Hq.
  rewrite (detect_category_found selected query c df cats Hc He Hne).
  unfold run_ranking.
  destruct (follower_filter_raises (normalize_follower_filter ff))
    as [e|] eqn:Hr.
  - pose proof (filter_frame_raises df c _ e Hr) as Hf.
    assert (Hs : score_frame df (Some c) (normalize_follower_filter ff)
                   we wf wl = Raise e).
    { unfold score_frame. now rewrite Hf. }
    split; [|split].
    + exists (Raise e), (Raise e). split; [now apply rank_raises|reflexivity].
    + intros out [r [H ->]]. inversion H as [e' He' | l r' Hl _]; subst.
      * rewrite Hs in He'. now injection He' as <-.
      * rewrite Hs in Hl. discriminate Hl.
    + intros e' [= <-]. now apply normalized_filter_raises.
  - split; [|split].
    + destruct (rank_creators_total df c (normalize_follower_filter ff)
                  we wf wl Hr) as [ranked H].
      exists (Ok (display ranked)). now exists (Ok ranked).
    + intros out [[ranked | e] [H ->]].
      * destruct ranked as [|s0 ranked']; [now left|]. right.
        exists (firstn 5 (s0 :: ranked')), (firstn 10 (s0 :: ranked')).
        split; [reflexivity|]. intros s Hs. apply in_firstn in Hs.
        exact (ranked_rows_in_category _ _ _ _ _ _ _ _ H Hs).
      * exfalso. inversion H as [e' He' |]; subst. unfold score_frame in He'.
        destruct (filter_frame_some df c (normalize_follower_filter ff) Hr)
          as [df' [Hf _]].
        rewrite Hf in He'. discriminate He'.
    + intros e'. discriminate.
Qed.

Lemma run_basic_shows_detected_category_witness :
  exists out,
    run_basic Scenario.records (Some "fashion")
      "Top creators in Fashion with >5000 followers" ">5000"
      0.5%Q 0.3%Q 0.2%Q out.
Proof.
  apply (run_basic_shows_detected_category Scenario.records (Some "fashion")
           "Top creators in Fashion with >5000 followers" ">5000"
           0.5%Q 0.3%Q 0.2%Q ["fashion"] "fashion");
    try reflexivity. discriminate.
Defined.

(** X20: a run in which no category is detected and the select box holds no
    string (its value on an empty vocabulary) ends in [AttributeError]; so
    does a run on a table with a missing category cell that comes before
    every category the query mentions.  An empty query stops the script
    before any of this. *)
Theorem run_basic_without_category :
  forall (df : frame) (selected : option string) (query ff : string)
         (we wf wl : Q) (out : outcome view),
    (truthy query = false ->
     (run_basic df selected query ff we wf wl out <-> out = Ok EnterQuery))
    /\ (truthy query = true ->
        extract_category_cells query (categories df) = Ok None ->
        (run_basic df None query ff we wf wl out <->
         out = Raise AttributeError))
    /\ (truthy query = true ->
        forall e, extract_category_cells query (categories df) = Raise e ->
        (run_basic df selected query ff we wf wl out <->
         out = Raise AttributeError)).
Proof.
  intros df selected query ff we wf wl out. unfold run_basic.
  split; [|split].
  - intros ->. tauto.
  - intros -> He. unfold detect_category. rewrite He.
    unfold run_ranking. split.
    + intros [ranked [Hr ->]]. inversion Hr as [e He' | l r Hl _]; subst.
      * now injection He' as <-.
      * discriminate Hl.
    + intros ->. exists (Raise AttributeError). split; [|reflexivity].
      now apply rank_raises.
  - intros -> e He. unfold detect_category. rewrite He.
    apply (proj1 (first_match_cells_raises _ _ _)) in He.
    destruct He as [-> _]. tauto.
Qed.

Lemma run_basic_without_category_witness :
  run_basic [] None "top tech creators" "" 0.5%Q 0.3%Q 0.2%Q
    (Raise AttributeError)
  /\ run_basic Samples.with_missing_category (Some "fashion")
       "top tech creators" "" 0.5%Q 0.3%Q 0.2%Q (Raise AttributeError).
Proof.
  split.
  - apply (proj1 (proj2 (run_basic_without_category [] None
             "top tech creators" "" 0.5%Q 0.3%Q 0.2%Q
             (Raise AttributeError)))); reflexivity.
  - apply (proj2 (proj2 (run_basic_without_category
             Samples.with_missing_category (Some "fashion")
             "top tech creators" "" 0.5%Q 0.3%Q 0.2%Q
             (Raise AttributeError))) eq_refl AttributeError);
      reflexivity.
Defined.

End MainFacts.
